(** * pglite-embedded-server: registry, port allocator and instance pool

    A shallow embedding of the instance registry (registry.js), the port
    allocator ([allocatePort]) and the instance pool (src/pool.js), with the
    properties of the lifecycle and arbitration layer stated over it.

    JavaScript objects used as dictionaries are finite maps, arrays are
    lists, asynchronous functions are split at their [await]s into the
    segments the event loop runs atomically. *)

From stdpp Require Import gmap strings list fin_maps sorting.
From Stdlib Require Import ZArith QArith Lia.

Local Open Scope Z_scope.

(** * Registry (registry.js) *)

Module Registry.

(** One value of [registry.instances]. *)
Record Entry := mkEntry {
  port : Z;
  pid : Z;
  started : string;
  version : string
}.

(** What [fs] finds at REGISTRY_FILE. *)
Inductive File :=
| Missing                                   (* !fs.existsSync(REGISTRY_FILE) *)
| Unparsable                                (* JSON.parse throws *)
| Json (instances : gmap string Entry).     (* { instances: {...} } *)

(** [loadRegistry()]: the [instances] object of the registry read from disk;
    a missing or unparsable file degrades to the empty registry. *)
Definition loadRegistry (disk : File) : gmap string Entry :=
  match disk with
  | Missing => ∅
  | Unparsable => ∅
  | Json instances => instances
  end.

(** [saveRegistry(registry)]: the file is overwritten with the snapshot. *)
Definition saveRegistry (registry : gmap string Entry) (disk : File) : File :=
  Json registry.

(** The property names every plain object inherits from [Object.prototype];
    [registry.instances] is such an object, fresh from [JSON.parse] or a
    literal. *)
Definition prototypeNames : list string :=
  ["constructor"; "__defineGetter__"; "__defineSetter__"; "hasOwnProperty";
   "__lookupGetter__"; "__lookupSetter__"; "isPrototypeOf";
   "propertyIsEnumerable"; "toString"; "valueOf"; "__proto__"; "toLocaleString"].

Definition inherited (key : string) : bool := bool_decide (key ∈ prototypeNames).

(** What [registry.instances[key]] evaluates to: an entry of the object's
    own, else the member of [Object.prototype] of that name, else
    [undefined]. *)
Inductive Lookup :=
| OwnEntry (e : Entry)
| PrototypeMember (key : string)
| Nothing.

Definition getProperty (key : string) (instances : gmap string Entry) : Lookup :=
  match instances !! key with
  | Some e => OwnEntry e
  | None => if inherited key then PrototypeMember key else Nothing
  end.

(** [registry.instances[key] = e]. Under the key '__proto__' an object
    that has no own property of that name (only [JSON.parse] makes one) runs
    the inherited setter: its prototype changes and no entry is stored. *)
Definition setProperty (key : string) (e : Entry) (instances : gmap string Entry)
    : gmap string Entry :=
  if decide (key = "__proto__")
  then match instances !! key with
       | Some _ => <[key := e]> instances
       | None => instances
       end
  else <[key := e]> instances.

(** [registerInstance(dataDir, port, pid)]; [now] is [new Date().toISOString()]. *)
Definition registerInstance (now : string) (dataDir : string) (p : Z) (pd : Z)
    (disk : File) : File :=
  let registry := loadRegistry disk in
  saveRegistry (setProperty dataDir (mkEntry p pd now "17.5") registry) disk.

(** [unregisterInstance(dataDir)]. *)
Definition unregisterInstance (dataDir : string) (disk : File) : File :=
  let registry := loadRegistry disk in
  saveRegistry (delete dataDir registry) disk.

(** [findInstanceByDataDir(dataDir)]: [registry.instances[dataDir] || null],
    [Nothing] standing for [null]. *)
Definition findInstanceByDataDir (dataDir : string) (disk : File) : Lookup :=
  getProperty dataDir (loadRegistry disk).

Section Sweep.

(** [isProcessRunning(pid)]: [process.kill(pid, 0)] returns without throwing.
    The process table belongs to the operating system. *)
Variable isProcessRunning : Z → bool.

(** Body of the [for ... of Object.entries(registry.instances)] loop of
    [cleanupStaleInstances], on the pair (registry, cleaned). *)
Definition sweepEntry (acc : gmap string Entry * nat) (kv : string * Entry)
    : gmap string Entry * nat :=
  let '(registry, cleaned) := acc in
  let '(dataDir, instance) := kv in
  if negb (isProcessRunning (pid instance))
  then (delete dataDir registry, S cleaned)
  else (registry, cleaned).

(** [cleanupStaleInstances()]: [Object.entries] takes a snapshot of the
    entries before the loop deletes from the object; the registry is saved
    only when something was removed. Returns the new disk and [cleaned]. *)
Definition cleanupStaleInstances (disk : File) : File * nat :=
  let registry := loadRegistry disk in
  let '(registry', cleaned) :=
    foldl sweepEntry (registry, O) (map_to_list registry) in
  (if (0 <? cleaned)%nat then saveRegistry registry' disk else disk, cleaned).

End Sweep.

Section Enumerated.

(** [Object.entries(registry.instances)]: the entries in the order the
    object keeps them, which a finite map does not record. *)
Variable entries : gmap string Entry → list (string * Entry).

(** [findInstanceByPort(port)]: [{ dataDir, ...instance }] for the first
    entry on the port, [null] when there is none. *)
Definition findInstanceByPort (p : Z) (disk : File) : option (string * Entry) :=
  let registry := loadRegistry disk in
  List.find (λ kv : string * Entry, port kv.2 =? p) (entries registry).

(** [listInstances()]: one [{ dataDir, ...instance }] per entry. *)
Definition listInstances (disk : File) : list (string * Entry) :=
  let registry := loadRegistry disk in
  (λ kv : string * Entry, (kv.1, kv.2)) <$> entries registry.

End Enumerated.

End Registry.

(** * Port allocator ([allocatePort] and its helpers) *)

Module Ports.
Import Registry.

Definition PORT_RANGE_START : Z := 12000.
Definition PORT_RANGE_END : Z := 12999.

Inductive AllocError :=
| OutOfRange (preferredPort : Z)   (* "Preferred port ... outside allowed range" *)
| RangeExhausted.                  (* "No available ports in range ..." *)

Section Allocator.

(** [isPortFree(port)]: the probe server on 127.0.0.1 reaches 'listening'. *)
Variable isPortFree : Z → bool.
Variable isProcessRunning : Z → bool.

(** [isPortInRegistry(port)]: some entry, whatever its process, has the port. *)
Definition isPortInRegistry (disk : File) (p : Z) : bool :=
  let registry := loadRegistry disk in
  existsb (λ kv : string * Entry, port kv.2 =? p) (map_to_list registry).

(** The loop [for (let port = p; port <= PORT_RANGE_END; port++)] with [k]
    iterations left. *)
Fixpoint scan (disk : File) (k : nat) (p : Z) : option Z :=
  match k with
  | O => None
  | S k' =>
      if isPortFree p && negb (isPortInRegistry disk p)
      then Some p
      else scan disk k' (p + 1)
  end.

(** Number of candidates from PORT_RANGE_START to PORT_RANGE_END. *)
Definition rangeSize : nat := Z.to_nat (PORT_RANGE_END - PORT_RANGE_START + 1).

(** [allocatePort(dataDir, preferredPort = null)]. A member of
    [Object.prototype] found under [dataDir] has no [pid], so
    [process.kill] throws and allocation goes on as it does for no entry. *)
Definition allocatePort (disk : File) (dataDir : string) (preferredPort : option Z)
    : AllocError + Z :=
  let registry := loadRegistry disk in
  let autoAllocate :=
    match scan disk rangeSize PORT_RANGE_START with
    | Some p => inr p
    | None => inl RangeExhausted
    end in
  let allocate :=
    match preferredPort with
    | Some pp =>
        if (pp <? PORT_RANGE_START) || (pp >? PORT_RANGE_END)
        then inl (OutOfRange pp)
        else if isPortFree pp && negb (isPortInRegistry disk pp)
        then inr pp
        else autoAllocate
    | None => autoAllocate
    end in
  match registry !! dataDir with
  | Some existing =>
      if isProcessRunning (pid existing) then inr (port existing) else allocate
  | None => allocate
  end.

End Allocator.

(** The two-part check of a candidate port: the probe binds and no
    registry entry has the port. *)
Definition passes (isPortFree : Z → bool) (disk : File) (q : Z) : bool :=
  isPortFree q && negb (isPortInRegistry disk q).

(** The object [getPortRangeInfo()] returns. *)
Record RangeInfo := mkRangeInfo {
  start : Z;
  end_ : Z;
  total : Z;
  used : Z;
  available : Z;
  usedPorts : list Z
}.

(** [getPortRangeInfo()]; [entries] enumerates the registry as
    [Object.values] does. *)
Definition getPortRangeInfo (entries : gmap string Entry → list (string * Entry))
    (disk : File) : RangeInfo :=
  let registry := loadRegistry disk in
  let ports := (λ kv : string * Entry, port kv.2) <$> entries registry in
  mkRangeInfo PORT_RANGE_START PORT_RANGE_END
    (PORT_RANGE_END - PORT_RANGE_START + 1)
    (Z.of_nat (length ports))
    (PORT_RANGE_END - PORT_RANGE_START + 1 - Z.of_nat (length ports))
    ports.

End Ports.

(** * Instance pool (src/pool.js) *)

Module Js.

(** Truthiness of the values an options object carries. *)
Class Truthy (A : Type) := truthy : A → bool.

#[global] Instance string_truthy : Truthy string :=
  λ s, match s with EmptyString => false | String _ _ => true end.
#[global] Instance bool_truthy : Truthy bool := λ b, b.
(** A JavaScript number: a finite value, an infinity, or NaN. *)
Inductive Number :=
| Finite (q : Q)
| PosInfinity
| NegInfinity
| NaN.

#[global] Instance number_truthy : Truthy Number :=
  λ n, match n with
       | Finite q => negb (Qeq_bool q 0)
       | PosInfinity | NegInfinity => true
       | NaN => false
       end.

(** [size >= n], for the size of a collection. *)
Definition size_ge (size : nat) (n : Number) : bool :=
  match n with
  | Finite q => Qle_bool q (inject_Z (Z.of_nat size))
  | PosInfinity => false
  | NegInfinity => true
  | NaN => false
  end.

(** The size is at most [n], as numbers. *)
Definition size_le (size : nat) (n : Number) : Prop :=
  match n with
  | Finite q => (inject_Z (Z.of_nat size) <= q)%Q
  | PosInfinity => True
  | NegInfinity | NaN => False
  end.

(** [n] is a whole number that is not negative, or [Infinity]. *)
Definition is_count (n : Number) : Prop :=
  match n with
  | Finite q => ∃ k : nat, (q == inject_Z (Z.of_nat k))%Q
  | PosInfinity => True
  | NegInfinity | NaN => False
  end.

(** [setMaxListeners(n + 10)] throws its RangeError: [n + 10] is negative
    or NaN. *)
Definition listeners_out_of_range (n : Number) : bool :=
  match n with
  | Finite q => negb (Qle_bool 0 (q + 10))
  | PosInfinity => false
  | NegInfinity | NaN => true
  end.

(** [x || d], for a property [x] that may be undefined. *)
Definition or {A : Type} `{Truthy A} (x : option A) (d : A) : A :=
  match x with
  | Some v => if truthy v then v else d
  | None => d
  end.

(** [x] is undefined or holds a falsy value. *)
Definition falsy {A : Type} `{Truthy A} (x : option A) : Prop :=
  match x with
  | Some v => truthy v = false
  | None => True
  end.

(** [x !== false], for a boolean property [x] that may be undefined. *)
Definition not_false (x : option bool) : bool :=
  match x with
  | Some false => false
  | _ => true
  end.

End Js.

(** ** ManagedInstance *)

Module Instance.

(** Sockets are told apart by number. *)
Abbreviation Socket := nat.

Inductive SocketEvent := Close | Error.   (* 'close', 'error' *)

#[global] Instance SocketEvent_eq_dec : EqDecision SocketEvent.
Proof. solve_decision. Defined.

(** Function objects held by the queue; JavaScript compares them by
    reference, so each closure created by the [k]-th call of [waitForFree]
    is a value of its own. *)
Inductive Fn :=
| PromiseResolve (k : nat)    (* [resolve] handed to the promise executor *)
| PromiseReject (k : nat)     (* [reject] handed to the promise executor *)
| ResolveWrapper (k : nat).   (* (instance) => { clearTimeout(timer); resolve(instance); } *)

#[global] Instance Fn_eq_dec : EqDecision Fn.
Proof. solve_decision. Defined.

(** An element of [this.queue]. *)
Record QueueItem := mkItem { resolve : Fn; reject : Fn }.

(** A [PGlite] object: the [engineId]-th one constructed, on [engineDir]
    (none for an in-memory engine). *)
Record PGlite := mkPGlite { engineId : nat; engineDir : option string }.

(** The fields of a [ManagedInstance]; [dataDir] is [null] in memory mode.
    The two timestamps are left out. *)
Record ManagedInstance := mkInstance {
  dbName : string;
  dataDir : option string;
  memoryMode : bool;
  db : option PGlite;
  locked : bool;
  activeSocket : option Socket;
  queue : list QueueItem
}.

(** [new ManagedInstance(dbName, dataDir, logger, memoryMode)]. *)
Definition new (name : string) (dir : option string) (mem : bool) : ManagedInstance :=
  mkInstance name dir mem None false None [].

Definition set_db (h : option PGlite) (m : ManagedInstance) : ManagedInstance :=
  mkInstance (dbName m) (dataDir m) (memoryMode m) h (locked m) (activeSocket m) (queue m).

Definition set_lock (l : bool) (s : option Socket) (m : ManagedInstance) : ManagedInstance :=
  mkInstance (dbName m) (dataDir m) (memoryMode m) (db m) l s (queue m).

Definition set_queue (q : list QueueItem) (m : ManagedInstance) : ManagedInstance :=
  mkInstance (dbName m) (dataDir m) (memoryMode m) (db m) (locked m) (activeSocket m) q.

(** *** Engine boot *)

(** Events an instance emits about its engine. *)
Inductive Emitted := Initialized (name : string) | Closed (name : string).

(** What lies outside the instance: the directories [fs] finds, the number
    of [PGlite] objects constructed so far, the engines whose [waitReady] has
    resolved, and the events emitted, oldest first. *)
Record Host := mkHost {
  dirs : gset string;
  booted : nat;
  ready : list nat;
  emitted : list Emitted
}.

(** How [await this.db.waitReady] ends. *)
Inductive ReadySignal := Resolves | Rejects.

Inductive InitError :=
| BootFailed (h : PGlite)   (* waitReady rejected *)
| InvalidDataDir.           (* fs.mkdirSync(null) *)

(** Where [initialize()] stands when it first gives up control. *)
Inductive Entered :=
| Returned (h : PGlite)     (* this.db was set: returned at once *)
| Awaiting (h : PGlite)     (* suspended on h.waitReady *)
| Threw (e : InitError).

(** [new PGlite(dir)]. *)
Definition construct (dir : option string) (host : Host) : Host * PGlite :=
  (mkHost (dirs host) (S (booted host)) (ready host) (emitted host),
   mkPGlite (booted host) dir).

(** The separator '/'. *)
Definition slash : Ascii.ascii := Ascii.ascii_of_nat 47.

(** The parents of a path: its non-empty prefixes that end before a '/'. *)
Fixpoint parents_from (prefix rest : string) : list string :=
  match rest with
  | EmptyString => []
  | String c rest' =>
      (if Ascii.eqb c slash && negb (String.eqb prefix EmptyString)
       then [prefix] else [])
      ++ parents_from (prefix +:+ String c EmptyString) rest'
  end.

Definition parents (dir : string) : list string := parents_from EmptyString dir.

(** [if (!fs.existsSync(dir)) fs.mkdirSync(dir, { recursive: true })]: the
    recursive [mkdirSync] makes the missing parents as well. *)
Definition ensureDir (dir : string) (host : Host) : Host :=
  if bool_decide (dir ∈ dirs host) then host
  else mkHost ({[dir]} ∪ list_to_set (parents dir) ∪ dirs host)
         (booted host) (ready host) (emitted host).

(** [initialize()] up to its [await]. *)
Definition initialize_enter (m : ManagedInstance) (host : Host)
    : ManagedInstance * Host * Entered :=
  match db m with
  | Some h => (m, host, Returned h)
  | None =>
      if memoryMode m then
        let '(host', h) := construct None host in
        (set_db (Some h) m, host', Awaiting h)
      else
        match dataDir m with
        | None => (m, host, Threw InvalidDataDir)
        | Some dir =>
            let '(host', h) := construct (Some dir) (ensureDir dir host) in
            (set_db (Some h) m, host', Awaiting h)
        end
  end.

(** [initialize()] from its [await] on: a rejected signal is thrown on to
    the caller; a resolved one is followed by the 'initialized' event and
    [return this.db]. *)
Definition initialize_resume (sig : ReadySignal) (h : PGlite)
    (m : ManagedInstance) (host : Host) : Host * (InitError + option PGlite) :=
  match sig with
  | Rejects => (host, inl (BootFailed h))
  | Resolves =>
      (mkHost (dirs host) (booted host) (ready host ++ [engineId h])
         (emitted host ++ [Initialized (dbName m)]),
       inr (db m))
  end.

(** One call of [initialize()] that nothing interleaves with. *)
Definition initialize (sig : ReadySignal) (m : ManagedInstance) (host : Host)
    : ManagedInstance * Host * (InitError + option PGlite) :=
  let '(m', host', e) := initialize_enter m host in
  match e with
  | Returned h => (m', host', inr (Some h))
  | Threw err => (m', host', inl err)
  | Awaiting h =>
      let '(host'', r) := initialize_resume sig h m' host' in (m', host'', r)
  end.

(** [close()]: errors of [db.close()] are swallowed. *)
Definition close (m : ManagedInstance) (host : Host) : ManagedInstance * Host :=
  (set_db None m,
   mkHost (dirs host) (booted host) (ready host) (emitted host ++ [Closed (dbName m)])).

(** *** Lock arbitration *)

(** What a run leaves behind, oldest first. [Granted] and [Released] stand
    where 'locked' and 'unlocked' are emitted; [via] is the promise the
    caller had waited on, if any. *)
Inductive Obs :=
| Granted (socket : Socket) (via : option nat)   (* lock(socket) returned *)
| Refused (socket : Socket) (via : option nat)   (* lock(socket) threw "already locked" *)
| Queued (k : nat) (socket : Socket)             (* waitForFree pushed an entry *)
| Released                                       (* unlock() ran *)
| Busy (k : nat) (socket : Socket).              (* acquire failed with "busy - try again" *)

(** An instance in the event loop: the once-listeners its [lock] left on
    sockets, the promises [waitForFree] made (how many, and which are
    settled), the armed timers, the [acquire] calls suspended at
    [await instance.waitForFree(timeout)] with the promise each awaits, and
    the fulfilled promises whose callers have not resumed yet, in order. *)
Record Loop := mkLoop {
  inst : ManagedInstance;
  listeners : list (Socket * SocketEvent);
  promises : nat;
  settled : list nat;
  timers : list nat;
  frames : list (nat * Socket);
  microtasks : list nat;
  trace : list Obs
}.

Definition start (m : ManagedInstance) : Loop := mkLoop m [] O [] [] [] [] [].

Definition set_inst (m : ManagedInstance) (w : Loop) : Loop :=
  mkLoop m (listeners w) (promises w) (settled w) (timers w) (frames w)
    (microtasks w) (trace w).

Definition log (o : Obs) (w : Loop) : Loop :=
  mkLoop (inst w) (listeners w) (promises w) (settled w) (timers w) (frames w)
    (microtasks w) (trace w ++ [o]).

(** The socket of the call suspended on promise [k]. *)
Fixpoint frame_of (k : nat) (fs : list (nat * Socket)) : option Socket :=
  match fs with
  | [] => None
  | (k', s) :: fs' => if decide (k' = k) then Some s else frame_of k fs'
  end.

Definition drop_frame (k : nat) (fs : list (nat * Socket)) : list (nat * Socket) :=
  filter (λ f : nat * Socket, f.1 ≠ k) fs.

(** [lock(socket)]. *)
Definition lock (socket : Socket) (via : option nat) (w : Loop) : Loop :=
  if locked (inst w) then log (Refused socket via) w
  else
    mkLoop (set_lock true (Some socket) (inst w))
      (listeners w ++ [(socket, Close); (socket, Error)])
      (promises w) (settled w) (timers w) (frames w) (microtasks w)
      (trace w ++ [Granted socket via]).

(** [clearTimeout(timer)] for the timer of promise [k]. *)
Definition clearTimeout (k : nat) (w : Loop) : Loop :=
  mkLoop (inst w) (listeners w) (promises w) (settled w)
    (filter (λ t, t ≠ k) (timers w)) (frames w) (microtasks w) (trace w).

(** Resolving promise [k]: nothing if it is settled; otherwise its awaiting
    caller is scheduled. The caller continues in a later job of the event
    loop ([Resume] below), after the code that resolved the promise has
    returned. *)
Definition fulfil (k : nat) (w : Loop) : Loop :=
  if bool_decide (k ∈ settled w) then w
  else
    mkLoop (inst w) (listeners w) (promises w) (k :: settled w) (timers w)
      (frames w) (microtasks w ++ [k]) (trace w).

(** Rejecting promise [k]: nothing if it is settled; otherwise the call
    awaiting it fails with the busy error. *)
Definition rejectBusy (k : nat) (w : Loop) : Loop :=
  if bool_decide (k ∈ settled w) then w
  else
    mkLoop (inst w) (listeners w) (promises w) (k :: settled w) (timers w)
      (drop_frame k (frames w)) (microtasks w)
      (match frame_of k (frames w) with
       | Some s => trace w ++ [Busy k s]
       | None => trace w
       end).

(** Calling a function object. *)
Definition call (f : Fn) (w : Loop) : Loop :=
  match f with
  | PromiseResolve k => fulfil k w
  | PromiseReject k => rejectBusy k w
  | ResolveWrapper k => fulfil k (clearTimeout k w)
  end.

(** [unlock()]. *)
Definition unlock (w : Loop) : Loop :=
  let w1 := log Released (set_inst (set_lock false None (inst w)) w) in
  match queue (inst w1) with
  | [] => w1
  | next :: rest => call (resolve next) (set_inst (set_queue rest (inst w1)) w1)
  end.

(** [waitForFree(timeout)] called for [socket], with the caller's [await]
    of the promise it returns. *)
Definition waitForFree (socket : Socket) (w : Loop) : Loop :=
  let k := promises w in
  if negb (locked (inst w)) then
    mkLoop (inst w) (listeners w) (S k) (k :: settled w) (timers w)
      (frames w ++ [(k, socket)]) (microtasks w ++ [k]) (trace w)
  else
    mkLoop
      (set_queue (queue (inst w) ++ [mkItem (ResolveWrapper k) (PromiseReject k)]) (inst w))
      (listeners w) (S k) (settled w) (timers w ++ [k])
      (frames w ++ [(k, socket)]) (microtasks w) (trace w ++ [Queued k socket]).

(** [this.queue.findIndex(p)]. *)
Fixpoint findIndex (p : QueueItem → bool) (q : list QueueItem) : option nat :=
  match q with
  | [] => None
  | item :: q' => if p item then Some O else S <$> findIndex p q'
  end.

(** The callback of the timer of promise [k]. *)
Definition onTimeout (k : nat) (w : Loop) : Loop :=
  let q := queue (inst w) in
  let q' :=
    match findIndex (λ item, bool_decide (resolve item = PromiseResolve k)) q with
    | Some idx => delete idx q
    | None => q
    end in
  rejectBusy k (set_inst (set_queue q' (inst w)) w).

(** What the event loop does next. *)
Inductive Event :=
| Acquire (socket : Socket)     (* acquire(dbName, socket, timeout) is back from getOrCreate *)
| Emit (socket : Socket) (e : SocketEvent)
| TimerFires (k : nat)
| Resume                        (* the first scheduled caller continues after its await *)
| Unlock.                       (* unlock() called from outside *)

Definition step (ev : Event) (w : Loop) : Loop :=
  match ev with
  | Acquire socket =>
      if locked (inst w) then waitForFree socket w else lock socket None w
  | Emit socket e =>
      let fired := filter (λ l, l = (socket, e)) (listeners w) in
      let kept := filter (λ l, l ≠ (socket, e)) (listeners w) in
      Nat.iter (length fired) unlock
        (mkLoop (inst w) kept (promises w) (settled w) (timers w) (frames w)
           (microtasks w) (trace w))
  | TimerFires k =>
      if bool_decide (k ∈ timers w) then onTimeout k (clearTimeout k w) else w
  | Resume =>
      match microtasks w with
      | [] => w
      | k :: rest =>
          let w1 :=
            mkLoop (inst w) (listeners w) (promises w) (settled w) (timers w)
              (drop_frame k (frames w)) rest (trace w) in
          match frame_of k (frames w) with
          | Some socket => lock socket (Some k) w1
          | None => w1
          end
      end
  | Unlock => unlock w
  end.

Definition run (evs : list Event) (w : Loop) : Loop :=
  foldl (λ w ev, step ev w) w evs.

(** *** Reading a trace *)

(** The holder after the observations [t], [h] being the holder before. *)
Fixpoint holder_after (h : option Socket) (t : list Obs) : option Socket :=
  match t with
  | [] => h
  | Granted s _ :: t' => holder_after (Some s) t'
  | Released :: t' => holder_after None t'
  | _ :: t' => holder_after h t'
  end.

(** No [Granted] in [t] comes while a holder is in place. *)
Fixpoint exclusive (h : option Socket) (t : list Obs) : bool :=
  match t with
  | [] => true
  | Granted s _ :: t' =>
      match h with
      | Some _ => false
      | None => exclusive (Some s) t'
      end
  | Released :: t' => exclusive None t'
  | _ :: t' => exclusive h t'
  end.

(** The promise a caller had waited on when it went on to [lock]. *)
Definition resumed (o : Obs) : option nat :=
  match o with
  | Granted _ via => via
  | Refused _ via => via
  | _ => None
  end.

Definition queued_id (o : Obs) : option nat :=
  match o with
  | Queued k _ => Some k
  | _ => None
  end.

Definition is_released (o : Obs) : bool :=
  match o with
  | Released => true
  | _ => false
  end.

(** The promise a function object belongs to. *)
Definition fn_id (f : Fn) : nat :=
  match f with
  | PromiseResolve k => k
  | PromiseReject k => k
  | ResolveWrapper k => k
  end.

(** *** Invariants of a run *)

(** The lock fields agree with the trace, and the trace never shows a grant
    over a holder. *)
Definition LockInv (l : bool) (a : option Socket) (t : list Obs) : Prop :=
  exclusive None t = true
  ∧ a = holder_after None t
  ∧ (l = true ↔ is_Some a).

Definition lock_inv (w : Loop) : Prop :=
  LockInv (locked (inst w)) (activeSocket (inst w)) (trace w).

(** The promises still to be served, in the order they will reach [lock]:
    those whose callers have resumed, those scheduled, those queued. *)
Definition order (w : Loop) : list nat :=
  omap resumed (trace w) ++ microtasks w ++ ((λ item, fn_id (resolve item)) <$> queue (inst w)).

Definition is_wrapper (item : QueueItem) : Prop :=
  ∃ k, resolve item = ResolveWrapper k.

Definition fifo_inv (w : Loop) : Prop :=
  StronglySorted lt (order w)
  ∧ Forall (λ k, (k < promises w)%nat) (order w)
  ∧ Forall is_wrapper (queue (inst w))
  ∧ omap queued_id (trace w) = seq 0 (promises w).

(** A step that queues nothing. *)
Definition quiet (w w' : Loop) : Prop :=
  promises w' = promises w
  ∧ order w' `sublist_of` order w
  ∧ queue (inst w') `sublist_of` queue (inst w)
  ∧ omap queued_id (trace w') = omap queued_id (trace w).

(** *** More readings of a trace *)

(** The promise whose caller failed with the busy error. *)
Definition busy_id (o : Obs) : option nat :=
  match o with
  | Busy k _ => Some k
  | _ => None
  end.

(** [lock] threw for a caller that had not waited. *)
Definition direct_refusal (o : Obs) : bool :=
  match o with
  | Refused _ None => true
  | _ => false
  end.

(** Observations that [unlock] and the timers leave. *)
Definition passive (o : Obs) : bool :=
  match o with
  | Released | Busy _ _ => true
  | _ => false
  end.

(** Every waiting call ends once: the promises scheduled or resumed are
    settled, and those that failed busy are settled, not scheduled, not
    resumed, and failed once. *)
Definition settle_inv (w : Loop) : Prop :=
  (∀ k, k ∈ microtasks w → k ∈ settled w)
  ∧ (∀ k, k ∈ omap resumed (trace w) → k ∈ settled w)
  ∧ (∀ k, k ∈ omap busy_id (trace w) →
       k ∈ settled w ∧ (k ∉ microtasks w) ∧ (k ∉ omap resumed (trace w)))
  ∧ NoDup (omap busy_id (trace w)).

(** The sockets that carry a listener were granted the lock. *)
Definition listener_inv (w : Loop) : Prop :=
  ∀ s e, (s, e) ∈ listeners w → ∃ via, (Granted s via) ∈ trace w.

End Instance.

(** ** InstancePool *)

Module Pool.

Module Options.
(** The options object; a property left out is [None]. *)
Record t := mk {
  baseDir : option string;
  memoryMode : option bool;
  maxInstances : option Js.Number;
  autoProvision : option bool
}.
Definition empty : t := mk None None None None.
End Options.

Record InstancePool := mkPool {
  baseDir : string;
  memoryMode : bool;
  maxInstances : Js.Number;
  autoProvision : bool;
  instances : gmap string Instance.ManagedInstance
}.

(** The fields [new InstancePool(options)] assigns (pool.js:178-183). *)
Definition new (options : Options.t) : InstancePool :=
  mkPool (Js.or (Options.baseDir options) "./data")
    (Js.or (Options.memoryMode options) false)
    (Js.or (Options.maxInstances options) (Js.Finite 100))
    (Js.not_false (Options.autoProvision options))
    ∅.

(** The last statement of the constructor throws when [maxInstances + 10]
    is no valid listener count. *)
Inductive ConstructError := ListenersOutOfRange (n : Js.Number).

(** [new InstancePool(options)] as a whole: the assignments, then
    [this.setMaxListeners(this.maxInstances + 10)]. *)
Definition construct (options : Options.t) : ConstructError + InstancePool :=
  let pool := new options in
  if Js.listeners_out_of_range (maxInstances pool)
  then inl (ListenersOutOfRange (maxInstances pool))
  else inr pool.

Definition set_instances (i : gmap string Instance.ManagedInstance)
    (pool : InstancePool) : InstancePool :=
  mkPool (baseDir pool) (memoryMode pool) (maxInstances pool) (autoProvision pool) i.

Inductive PoolError :=
| CapacityExceeded (max : Js.Number) (name : string)   (* "Maximum instances limit reached" *)
| NotProvisioned (name : string)                 (* "does not exist (auto-provision disabled)" *)
| InitFailed (e : Instance.InitError).

Section WithPath.

(** Node's [path.join]. *)
Variable path_join : string → string → string.

(** The first half of [getOrCreate(dbName)]: the instance found under the
    name, or the one constructed and stored under it. *)
Definition resolve (name : string) (pool : InstancePool)
    : PoolError + (InstancePool * Instance.ManagedInstance) :=
  match instances pool !! name with
  | Some instance => inr (pool, instance)
  | None =>
      if Js.size_ge (size (instances pool)) (maxInstances pool)
      then inl (CapacityExceeded (maxInstances pool) name)
      else if negb (autoProvision pool)
      then inl (NotProvisioned name)
      else
        let dir := if memoryMode pool then None
                   else Some (path_join (baseDir pool) name) in
        let instance := Instance.new name dir (memoryMode pool) in
        inr (set_instances (<[name := instance]> (instances pool)) pool, instance)
  end.

(** [getOrCreate(dbName)], [sig] being how the engine's boot ends. *)
Definition getOrCreate (sig : Instance.ReadySignal) (name : string)
    (pool : InstancePool) (host : Instance.Host)
    : InstancePool * Instance.Host * (PoolError + Instance.ManagedInstance) :=
  match resolve name pool with
  | inl e => (pool, host, inl e)
  | inr (pool1, instance) =>
      let '(instance', host', r) := Instance.initialize sig instance host in
      let pool2 := set_instances (<[name := instance']> (instances pool1)) pool1 in
      match r with
      | inl e => (pool2, host', inl (InitFailed e))
      | inr _ => (pool2, host', inr instance')
      end
  end.

(** [closeInstance(dbName)]. *)
Definition closeInstance (name : string) (pool : InstancePool)
    (host : Instance.Host) : InstancePool * Instance.Host :=
  match instances pool !! name with
  | Some instance =>
      let '(_, host') := Instance.close instance host in
      (set_instances (delete name (instances pool)) pool, host')
  | None => (pool, host)
  end.

(** The instances of the pool in the order in which their [close()] calls,
    all started by [closeAll], come to emit 'closed'. *)
Variable closing :
  gmap string Instance.ManagedInstance → list (string * Instance.ManagedInstance).

(** [closeAll()]. *)
Definition closeAll (pool : InstancePool) (host : Instance.Host)
    : InstancePool * Instance.Host :=
  let host' :=
    foldl (λ h (kv : string * Instance.ManagedInstance), (Instance.close kv.2 h).2)
      host (closing (instances pool)) in
  (set_instances ∅ pool, host').

(** Calls on a pool, each run to its end before the next. In [getOrCreate]
    the size check and the insertion lie in one synchronous stretch, before
    its first [await]. *)
Inductive Op :=
| GetOrCreate (name : string) (sig : Instance.ReadySignal)
| CloseInstance (name : string)
| CloseAll.

Definition exec (op : Op) (st : InstancePool * Instance.Host)
    : InstancePool * Instance.Host :=
  match op with
  | GetOrCreate name sig => (getOrCreate sig name st.1 st.2).1
  | CloseInstance name => closeInstance name st.1 st.2
  | CloseAll => closeAll st.1 st.2
  end.

Definition execAll (ops : list Op) (st : InstancePool * Instance.Host)
    : InstancePool * Instance.Host :=
  foldl (λ st op, exec op st) st ops.

End WithPath.

(** The pool holds no more instances than [maxInstances]. *)
Definition within_capacity (pool : InstancePool) : Prop :=
  Js.size_le (size (instances pool)) (maxInstances pool).

(** [get(dbName)]: the instance under the name, without locking. *)
Definition get (name : string) (pool : InstancePool) : option Instance.ManagedInstance :=
  instances pool !! name.

End Pool.

(** * Sample registries *)

Definition sample_registry : gmap string Registry.Entry :=
  <["/srv/a" := Registry.mkEntry 12000 100 "2025-01-01T00:00:00.000Z" "17.5"]>
    (<["/srv/b" := Registry.mkEntry 12001 200 "2025-01-01T00:00:00.000Z" "17.5"]> ∅).

Definition stale_registry : gmap string Registry.Entry :=
  {[ "/srv/old" := Registry.mkEntry 12005 4242 "2025-01-01T00:00:00.000Z" "17.5" ]}.


(** * Registry: stale sweep *)

Section SweepFacts.
Import Registry.
Variable alive : Z → bool.

Lemma sweep_count (l : list (string * Entry)) (r : gmap string Entry) (c : nat) :
  (foldl (sweepEntry alive) (r, c) l).2
  = (c + length (filter (λ kv : string * Entry, alive (pid kv.2) = false) l))%nat.
Proof.
  revert r c. induction l as [|[k e] l IH]; intros r c; simpl.
  - lia.
  - destruct (alive (pid e)) eqn:He; simpl; rewrite IH.
    + rewrite filter_cons_False by (simpl; congruence). lia.
    + rewrite filter_cons_True by done. simpl. lia.
Qed.

Lemma sweep_lookup_dead (l : list (string * Entry)) (r : gmap string Entry)
    (c : nat) (k : string) :
  (r !! k = None ∨ ∃ e, (k, e) ∈ l ∧ alive (pid e) = false) →
  (foldl (sweepEntry alive) (r, c) l).1 !! k = None.
Proof.
  revert r c. induction l as [|[k' e'] l IH]; intros r c H; simpl.
  - destruct H as [H|(e & H & _)]; [done|]. by apply elem_of_nil in H.
  - destruct (alive (pid e')) eqn:He'; simpl; apply IH.
    + destruct H as [H|(e & H & Hd)]; [by left|].
      apply elem_of_cons in H as [H|H]; [|right; eauto].
      inversion H; subst. congruence.
    + destruct H as [H|(e & H & Hd)].
      * left. destruct (decide (k' = k)) as [->|Hne].
        -- apply lookup_delete_eq.
        -- by rewrite lookup_delete_ne.
      * apply elem_of_cons in H as [H|H]; [|right; eauto].
        inversion H; subst. left. apply lookup_delete_eq.
Qed.

Lemma sweep_lookup_live (l : list (string * Entry)) (r : gmap string Entry)
    (c : nat) (k : string) :
  (∀ e, (k, e) ∈ l → alive (pid e) = true) →
  (foldl (sweepEntry alive) (r, c) l).1 !! k = r !! k.
Proof.
  revert r c. induction l as [|[k' e'] l IH]; intros r c H; simpl; [done|].
  destruct (alive (pid e')) eqn:He'; simpl.
  - apply IH. intros e Hin. apply H. by right.
  - rewrite IH.
    + apply lookup_delete_ne. intros ->.
      specialize (H e' ltac:(left)). congruence.
    + intros e Hin. apply H. by right.
Qed.

Lemma sweep_registry (r : gmap string Entry) (c : nat) :
  (foldl (sweepEntry alive) (r, c) (map_to_list r)).1
  = filter (λ kv : string * Entry, alive (pid kv.2) = true) r.
Proof.
  apply map_eq. intros k.
  destruct (r !! k) as [e|] eqn:Hk.
  - destruct (alive (pid e)) eqn:He.
    + rewrite sweep_lookup_live.
      * rewrite Hk. symmetry. by apply map_lookup_filter_Some.
      * intros e0 Hin. apply elem_of_map_to_list in Hin. congruence.
    + rewrite sweep_lookup_dead.
      * symmetry. apply map_lookup_filter_None. right. intros e0 He0. simpl.
        congruence.
      * right. exists e. split; [|done]. by apply elem_of_map_to_list.
  - rewrite sweep_lookup_dead by (by left).
    symmetry. apply map_lookup_filter_None. by left.
Qed.

End SweepFacts.

Lemma filter_to_list_length `{!∀ kv : string * Registry.Entry, Decision (P kv)}
    (r : gmap string Registry.Entry) :
  length (filter P (map_to_list r)) = size (filter P r).
Proof.
  rewrite map_filter_alt. rewrite <- length_map_to_list.
  symmetry. apply Permutation_length, map_to_list_to_map.
  eapply NoDup_fmap_1 with (f := id). rewrite list_fmap_id.
  apply NoDup_fmap_2_strong.
  - intros [k1 e1] [k2 e2] H1 H2 Hk. simpl in Hk. subst k2.
    apply list_elem_of_filter in H1 as [_ H1], H2 as [_ H2].
    apply elem_of_map_to_list in H1, H2. congruence.
  - apply NoDup_filter, NoDup_map_to_list.
Qed.

(** C9. [cleanupStaleInstances()] on a registry of N entries, M of which
    have a pid that is not a running process: the registry left on disk is
    the old one restricted to the entries whose process runs (each of them
    unchanged), the returned count is M, and N - M entries remain. *)
Theorem cleanupStaleInstances_exact (alive : Z → bool) (disk : Registry.File)
    (N M : nat) :
  size (Registry.loadRegistry disk) = N →
  size (filter (λ kv : string * Registry.Entry, alive (Registry.pid kv.2) = false)
          (Registry.loadRegistry disk)) = M →
  let result := Registry.cleanupStaleInstances alive disk in
  Registry.loadRegistry result.1
    = filter (λ kv : string * Registry.Entry, alive (Registry.pid kv.2) = true)
        (Registry.loadRegistry disk)
  ∧ result.2 = M
  ∧ size (Registry.loadRegistry result.1) = (N - M)%nat
  ∧ (∀ dataDir entry,
       Registry.loadRegistry disk !! dataDir = Some entry →
       Registry.loadRegistry result.1 !! dataDir
       = if alive (Registry.pid entry) then Some entry else None).
Proof.
  intros HN HM result.
  set (r := Registry.loadRegistry disk) in *.
  assert (Hr : Registry.loadRegistry result.1
               = filter (λ kv : string * Registry.Entry,
                           alive (Registry.pid kv.2) = true) r).
  { subst result. unfold Registry.cleanupStaleInstances. fold r.
    pose proof (sweep_registry alive r O) as Hreg.
    pose proof (sweep_count alive (map_to_list r) r O) as Hcnt.
    destruct (foldl (Registry.sweepEntry alive) (r, O) (map_to_list r))
      as [r' c] eqn:Hf.
    simpl in *. destruct (0 <? c)%nat eqn:Hc; simpl; [done|].
    apply Nat.ltb_ge in Hc.
    assert (Hnil : filter (λ kv : string * Registry.Entry,
              alive (Registry.pid kv.2) = false) (map_to_list r) = []).
    { apply nil_length_inv. lia. }
    clear Hf Hreg Hcnt. fold r.
    symmetry. apply map_filter_id.
    intros k e Hk. simpl.
    destruct (alive (Registry.pid e)) eqn:He; [done|].
    assert ((k, e) ∈ filter (λ kv : string * Registry.Entry,
              alive (Registry.pid kv.2) = false) (map_to_list r)) as Hin.
    { apply list_elem_of_filter. split; [done|]. by apply elem_of_map_to_list. }
    rewrite Hnil in Hin. by apply elem_of_nil in Hin. }
  assert (Hc : result.2 = M).
  { subst result. unfold Registry.cleanupStaleInstances. fold r.
    pose proof (sweep_count alive (map_to_list r) r O) as Hcnt.
    destruct (foldl (Registry.sweepEntry alive) (r, O) (map_to_list r))
      as [r' c] eqn:Hf.
    simpl in *. rewrite Hcnt. rewrite filter_to_list_length. done. }
  split; [done|]. split; [done|]. split.
  - rewrite Hr.
    pose proof (map_filter_union_complement
      (λ kv : string * Registry.Entry, alive (Registry.pid kv.2) = true) r) as Hu.
    pose proof (map_disjoint_filter_complement
      (λ kv : string * Registry.Entry, alive (Registry.pid kv.2) = true) r) as Hd.
    apply map_size_disj_union in Hd. rewrite Hu in Hd.
    assert (filter (λ v : string * Registry.Entry,
                      ¬ alive (Registry.pid v.2) = true) r
            = filter (λ kv : string * Registry.Entry,
                        alive (Registry.pid kv.2) = false) r) as Heq.
    { apply map_filter_ext. intros k e _. simpl.
      destruct (alive (Registry.pid e)); split; congruence. }
    rewrite Heq in Hd. lia.
  - intros dataDir entry Hk. rewrite Hr.
    destruct (alive (Registry.pid entry)) eqn:He.
    + by apply map_lookup_filter_Some.
    + apply map_lookup_filter_None. right. intros e0 He0. simpl. congruence.
Qed.

Lemma cleanupStaleInstances_exact_witness :
  let alive := λ pid : Z, pid =? 100 in
  let result := Registry.cleanupStaleInstances alive (Registry.Json sample_registry) in
  result.2 = 1%nat ∧ size (Registry.loadRegistry result.1) = 1%nat.
Proof.
  intros alive result.
  destruct (cleanupStaleInstances_exact alive (Registry.Json sample_registry) 2 1)
    as (_ & Hc & Hs & _); [vm_compute; reflexivity | vm_compute; reflexivity |].
  split; [exact Hc | exact Hs].
Defined.

(** * Port allocator: preferred port *)

Section AllocatorFacts.
Import Registry Ports.
Variable isPortFree : Z → bool.
Variable alive : Z → bool.
Variable disk : File.

Lemma scan_first (k : nat) (p q : Z) :
  scan isPortFree disk k p = Some q →
  p ≤ q < p + Z.of_nat k
  ∧ isPortFree q = true
  ∧ isPortInRegistry disk q = false
  ∧ ∀ q', p ≤ q' < q → isPortFree q' && negb (isPortInRegistry disk q') = false.
Proof.
  revert p. induction k as [|k IH]; intros p; simpl; [done|].
  destruct (isPortFree p && negb (isPortInRegistry disk p)) eqn:Hp.
  - intros [= <-]. apply andb_true_iff in Hp as [Hf Hr].
    apply negb_true_iff in Hr. repeat split; try done; lia.
  - intros Hs. apply IH in Hs as (Hq & Hf & Hr & Hmin).
    repeat split; try done; try lia.
    intros q' Hq'. destruct (decide (q' = p)) as [->|Hne]; [done|].
    apply Hmin. lia.
Qed.

Lemma scan_none (k : nat) (p : Z) :
  scan isPortFree disk k p = None →
  ∀ q', p ≤ q' < p + Z.of_nat k →
        isPortFree q' && negb (isPortInRegistry disk q') = false.
Proof.
  revert p. induction k as [|k IH]; intros p; simpl; [lia|].
  destruct (isPortFree p && negb (isPortInRegistry disk p)) eqn:Hp; [done|].
  intros Hs q' Hq'. destruct (decide (q' = p)) as [->|Hne]; [done|].
  apply (IH _ Hs). lia.
Qed.

Lemma isPortInRegistry_spec (p : Z) :
  isPortInRegistry disk p = true
  ↔ ∃ dataDir entry, loadRegistry disk !! dataDir = Some entry ∧ port entry = p.
Proof.
  unfold isPortInRegistry. rewrite existsb_exists. split.
  - intros ([k e] & Hin & Hp). exists k, e. split.
    + apply elem_of_map_to_list. by apply list_elem_of_In.
    + simpl in Hp. lia.
  - intros (k & e & Hk & Hp). exists (k, e). split.
    + apply list_elem_of_In. by apply elem_of_map_to_list.
    + simpl. lia.
Qed.

End AllocatorFacts.

(** C7 (as amended). When the data directory has no entry with a running
    process: a preferred port outside [12000, 12999] fails with the
    out-of-range error; every port returned is claimed by no registry entry,
    passed the probe and lies in the range; and a preferred port inside the
    range that some entry claims, live or stale, is skipped for the first
    candidate, counting up from 12000, that passes both checks. *)
Theorem allocatePort_preferred_policy (isPortFree alive : Z → bool)
    (disk : Registry.File) (dataDir : string) (pp : Z) :
  (∀ e, Registry.loadRegistry disk !! dataDir = Some e →
        alive (Registry.pid e) = false) →
  let result := Ports.allocatePort isPortFree alive disk dataDir (Some pp) in
  (pp < 12000 ∨ 12999 < pp → result = inl (Ports.OutOfRange pp))
  ∧ (∀ q, result = inr q →
       (∀ dir entry, Registry.loadRegistry disk !! dir = Some entry →
                     Registry.port entry ≠ q)
       ∧ isPortFree q = true
       ∧ 12000 ≤ q ≤ 12999)
  ∧ (12000 ≤ pp ≤ 12999 →
     (∃ dir entry, Registry.loadRegistry disk !! dir = Some entry
                   ∧ Registry.port entry = pp) →
     ∀ q, result = inr q →
       q ≠ pp
       ∧ ∀ q', 12000 ≤ q' < q →
               isPortFree q' && negb (Ports.isPortInRegistry disk q') = false).
Proof.
  intros Hstale result.
  assert (Hres : result =
    if (pp <? Ports.PORT_RANGE_START) || (pp >? Ports.PORT_RANGE_END)
    then inl (Ports.OutOfRange pp)
    else if isPortFree pp && negb (Ports.isPortInRegistry disk pp)
    then inr pp
    else match Ports.scan isPortFree disk Ports.rangeSize Ports.PORT_RANGE_START with
         | Some p => inr p
         | None => inl Ports.RangeExhausted
         end).
  { subst result. unfold Ports.allocatePort.
    destruct (Registry.loadRegistry disk !! dataDir) as [e|] eqn:He; [|done].
    by rewrite (Hstale e eq_refl). }
  clearbody result. subst result.
  unfold Ports.PORT_RANGE_START, Ports.PORT_RANGE_END.
  assert (∀ q, Ports.isPortInRegistry disk q = false →
               ∀ dir entry, Registry.loadRegistry disk !! dir = Some entry →
                            Registry.port entry ≠ q) as Hunclaimed.
  { intros q Hq dir entry Hd Hp.
    assert (Ports.isPortInRegistry disk q = true); [|congruence].
    apply isPortInRegistry_spec. eauto. }
  split; [|split].
  - intros Hout.
    assert ((pp <? 12000) || (pp >? 12999) = true) as ->; [|done].
    apply orb_true_iff. destruct Hout; [left|right]; lia.
  - intros q.
    destruct ((pp <? 12000) || (pp >? 12999)) eqn:Hrange; [done|].
    apply orb_false_iff in Hrange as [H1 H2].
    destruct (isPortFree pp && negb (Ports.isPortInRegistry disk pp)) eqn:Hpp.
    + intros [= <-]. apply andb_true_iff in Hpp as [Hf Hr].
      apply negb_true_iff in Hr. split; [by apply Hunclaimed|]. split; [done|lia].
    + destruct (Ports.scan isPortFree disk Ports.rangeSize 12000) as [p|] eqn:Hs;
        [|done].
      intros [= <-]. apply scan_first in Hs as (Hq & Hf & Hr & _).
      split; [by apply Hunclaimed|]. split; [done|].
      unfold Ports.rangeSize, Ports.PORT_RANGE_START, Ports.PORT_RANGE_END in Hq.
      lia.
  - intros Hin Hclaimed q. apply isPortInRegistry_spec in Hclaimed.
    assert ((pp <? 12000) || (pp >? 12999) = false) as ->.
    { apply orb_false_iff. split; lia. }
    rewrite Hclaimed, andb_false_r.
    destruct (Ports.scan isPortFree disk Ports.rangeSize 12000) as [p|] eqn:Hs;
      [|done].
    intros [= <-]. apply scan_first in Hs as (Hq & Hf & Hr & Hmin).
    split; [congruence|]. intros q' Hq'. apply Hmin. lia.
Qed.

Lemma allocatePort_preferred_policy_witness :
  Ports.allocatePort (λ _, true) (λ _, false)
    (Registry.Json stale_registry) "/srv/new" (Some 12005) = inr 12000
  ∧ (∀ dir entry, Registry.loadRegistry (Registry.Json stale_registry) !! dir
                  = Some entry → Registry.port entry ≠ 12000)
  ∧ 12000 ≠ 12005.
Proof.
  split; [vm_compute; reflexivity|].
  destruct (allocatePort_preferred_policy (λ _, true) (λ _, false)
              (Registry.Json stale_registry) "/srv/new" 12005)
    as (_ & Hfree & Hskip); [intros e He; reflexivity|].
  split.
  - apply (Hfree 12000). vm_compute; reflexivity.
  - apply (Hskip ltac:(lia)); [|vm_compute; reflexivity].
    exists "/srv/old", (Registry.mkEntry 12005 4242 "2025-01-01T00:00:00.000Z" "17.5").
    split; [vm_compute; reflexivity | reflexivity].
Defined.

(** C7 as stated fails twice. With the stale entry claiming 12005 and every
    port bindable, the allocator returns 12000, which is not ≥ 12006: the
    scan restarts at the bottom of the range. And a preferred port outside
    the range is not rejected when the data directory's own entry is live:
    that entry's port is returned first. *)
Lemma allocatePort_stale_12005_counterexample :
  Ports.allocatePort (λ _, true) (λ _, false)
    (Registry.Json stale_registry) "/srv/new" (Some 12005) = inr 12000
  ∧ ¬ (12006 ≤ 12000)
  ∧ Ports.allocatePort (λ _, true) (λ _, true)
      (Registry.Json stale_registry) "/srv/old" (Some 80) = inr 12005.
Proof. split; [vm_compute; reflexivity|]. split; [lia | vm_compute; reflexivity]. Qed.

(** * Lock arbitration *)

Section LockFacts.
Import Instance.

Lemma holder_after_app (t1 t2 : list Obs) (h : option Socket) :
  holder_after h (t1 ++ t2) = holder_after (holder_after h t1) t2.
Proof.
  revert h. induction t1 as [|o t1 IH]; intros h; simpl; [done|].
  destruct o; apply IH.
Qed.

Lemma exclusive_app (t1 t2 : list Obs) (h : option Socket) :
  exclusive h (t1 ++ t2) = exclusive h t1 && exclusive (holder_after h t1) t2.
Proof.
  revert h. induction t1 as [|o t1 IH]; intros h; simpl; [done|].
  destruct o; try apply IH. destruct h; [done|]. apply IH.
Qed.

Lemma LockInv_idle (l : bool) (a : option Socket) (t : list Obs) (o : Obs) :
  (∀ s via, o ≠ Granted s via) → o ≠ Released →
  LockInv l a t → LockInv l a (t ++ [o]).
Proof.
  intros Hg Hr (He & Ha & Hl). unfold LockInv.
  rewrite exclusive_app, holder_after_app, He.
  destruct o as [s via|s via|k s| |k s]; simpl;
    first [done | by destruct (Hg s via) | by destruct Hr].
Qed.

Lemma LockInv_granted (a : option Socket) (t : list Obs) (s : Socket)
    (via : option nat) :
  LockInv false a t → LockInv true (Some s) (t ++ [Granted s via]).
Proof.
  intros (He & Ha & Hl). unfold LockInv.
  rewrite exclusive_app, holder_after_app, He. simpl.
  destruct (holder_after None t) eqn:Hh.
  - subst a. destruct Hl as [_ Hl]. by specialize (Hl (mk_is_Some _ _ eq_refl)).
  - split; [done|]. split; [done|]. split; [by eexists|done].
Qed.

Lemma LockInv_released (l : bool) (a : option Socket) (t : list Obs) :
  LockInv l a t → LockInv false None (t ++ [Released]).
Proof.
  intros (He & Ha & Hl). unfold LockInv.
  rewrite exclusive_app, holder_after_app, He. simpl.
  split; [done|]. split; [done|]. split; [done|]. by intros [? ?].
Qed.

Lemma lock_inv_lock (s : Socket) (via : option nat) (w : Loop) :
  lock_inv w → lock_inv (lock s via w).
Proof.
  unfold lock_inv, lock. intros H.
  destruct (locked (inst w)) eqn:Hl; simpl.
  - rewrite Hl. by apply LockInv_idle.
  - by apply LockInv_granted with (a := activeSocket (inst w)).
Qed.

Lemma call_view (f : Fn) (w : Loop) :
  locked (inst (call f w)) = locked (inst w)
  ∧ activeSocket (inst (call f w)) = activeSocket (inst w)
  ∧ (trace (call f w) = trace w ∨ ∃ k s, trace (call f w) = trace w ++ [Busy k s]).
Proof.
  destruct f as [k|k|k]; simpl; unfold fulfil, rejectBusy; simpl;
    case_bool_decide; simpl; auto.
  destruct (frame_of k (frames w)); [|auto].
  split; [done|]. split; [done|]. right. eauto.
Qed.

Lemma onTimeout_view (k : nat) (w : Loop) :
  locked (inst (onTimeout k w)) = locked (inst w)
  ∧ activeSocket (inst (onTimeout k w)) = activeSocket (inst w)
  ∧ (trace (onTimeout k w) = trace w
     ∨ ∃ k' s, trace (onTimeout k w) = trace w ++ [Busy k' s]).
Proof.
  unfold onTimeout, rejectBusy; simpl. case_bool_decide; simpl; auto.
  destruct (frame_of k (frames w)); [|auto].
  split; [done|]. split; [done|]. right. eauto.
Qed.

Lemma lock_inv_call (f : Fn) (w : Loop) : lock_inv w → lock_inv (call f w).
Proof.
  unfold lock_inv. destruct (call_view f w) as (-> & -> & [->|(k & s & ->)]);
    [done|]. by apply LockInv_idle.
Qed.

Lemma lock_inv_unlock (w : Loop) : lock_inv w → lock_inv (unlock w).
Proof.
  intros H. unfold unlock. simpl.
  assert (lock_inv (log Released (set_inst (set_lock false None (inst w)) w))) as H1.
  { unfold lock_inv. simpl. eapply LockInv_released, H. }
  destruct (queue (inst w)); [done|].
  apply lock_inv_call. exact H1.
Qed.

Lemma lock_inv_unlocks (n : nat) (w : Loop) :
  lock_inv w → lock_inv (Nat.iter n unlock w).
Proof. induction n; simpl; auto using lock_inv_unlock. Qed.

Lemma lock_inv_step (ev : Event) (w : Loop) : lock_inv w → lock_inv (step ev w).
Proof.
  intros H. destruct ev as [s|s e|k| |]; simpl.
  - destruct (locked (inst w)) eqn:Hl.
    + unfold waitForFree. rewrite Hl. simpl.
      unfold lock_inv. simpl. by apply LockInv_idle.
    + by apply lock_inv_lock.
  - by apply lock_inv_unlocks.
  - case_bool_decide; [|done].
    destruct (onTimeout_view k (clearTimeout k w)) as (Hl & Ha & Ht).
    unfold lock_inv. rewrite Hl, Ha.
    destruct Ht as [->|(k' & s & ->)]; simpl; [done|]. by apply LockInv_idle.
  - destruct (microtasks w) as [|k rest]; [done|].
    destruct (frame_of k (frames w)); [|done].
    by apply lock_inv_lock.
  - by apply lock_inv_unlock.
Qed.

Lemma lock_inv_run (evs : list Event) (w : Loop) : lock_inv w → lock_inv (run evs w).
Proof.
  revert w. induction evs as [|ev evs IH]; intros w H; simpl; [done|].
  apply IH, lock_inv_step, H.
Qed.

End LockFacts.

(** C1. From a fresh instance, whatever the event loop runs: the trace
    shows no grant while a holder is in place (between two grants there is an
    [unlock]), the one [activeSocket] is the socket of the last grant not yet
    followed by an [unlock], [locked] says whether there is one, and
    [lock] on a locked instance throws and leaves the instance as it was. *)
Theorem lock_mutual_exclusion (name : string) (dir : option string) (mem : bool)
    (evs : list Instance.Event) :
  let w := Instance.run evs (Instance.start (Instance.new name dir mem)) in
  Instance.exclusive None (Instance.trace w) = true
  ∧ Instance.activeSocket (Instance.inst w)
    = Instance.holder_after None (Instance.trace w)
  ∧ (Instance.locked (Instance.inst w) = true
     ↔ is_Some (Instance.activeSocket (Instance.inst w)))
  ∧ (Instance.locked (Instance.inst w) = true →
     ∀ socket via,
       Instance.inst (Instance.lock socket via w) = Instance.inst w
       ∧ Instance.trace (Instance.lock socket via w)
         = Instance.trace w ++ [Instance.Refused socket via]).
Proof.
  intros w.
  assert (Instance.lock_inv w) as (He & Ha & Hl).
  { apply lock_inv_run. unfold Instance.lock_inv, Instance.LockInv. simpl.
    split; [done|]. split; [done|]. split; [done|]. by intros [? ?]. }
  split; [done|]. split; [done|]. split; [done|].
  intros Hlocked socket via. unfold Instance.lock. by rewrite Hlocked.
Qed.

(** * Promotion order *)

Section FifoFacts.
Import Instance.

Lemma StronglySorted_sublist (l1 l2 : list nat) :
  l1 `sublist_of` l2 → StronglySorted lt l2 → StronglySorted lt l1.
Proof.
  induction 1 as [|x l1 l2 Hs IH|x l1 l2 Hs IH]; intros Hl2.
  - constructor.
  - apply StronglySorted_inv in Hl2 as [Hl2 Hx]. constructor; [auto|].
    apply Forall_forall. intros y Hy. rewrite Forall_forall in Hx.
    apply Hx. eapply elem_of_sublist; eauto.
  - apply StronglySorted_inv in Hl2 as [Hl2 _]. auto.
Qed.

Lemma Forall_sublist_of {A : Type} (P : A → Prop) (l1 l2 : list A) :
  l1 `sublist_of` l2 → Forall P l2 → Forall P l1.
Proof.
  intros Hs. rewrite !Forall_forall. intros H x Hx.
  apply H. eapply elem_of_sublist; eauto.
Qed.

Lemma quiet_refl (w : Loop) : quiet w w.
Proof. by repeat split. Qed.

Lemma quiet_trans (w1 w2 w3 : Loop) : quiet w1 w2 → quiet w2 w3 → quiet w1 w3.
Proof.
  intros (Hp & Ho & Hq & Ht) (Hp' & Ho' & Hq' & Ht'). repeat split.
  - congruence.
  - by etrans.
  - by etrans.
  - congruence.
Qed.

Lemma fifo_inv_quiet (w w' : Loop) : fifo_inv w → quiet w w' → fifo_inv w'.
Proof.
  intros (Hs & Hb & Hw & Hq) (Hp & Ho & Hqq & Ht). repeat split.
  - eapply StronglySorted_sublist; eauto.
  - rewrite Hp. eapply Forall_sublist_of; eauto.
  - eapply Forall_sublist_of; eauto.
  - by rewrite Hp, Ht.
Qed.

Lemma quiet_lock_direct (s : Socket) (w : Loop) : quiet w (lock s None w).
Proof.
  unfold lock. destruct (locked (inst w)); repeat split; simpl; try done;
    unfold order; simpl; by rewrite omap_app, app_nil_r.
Qed.

Lemma quiet_unlock (w : Loop) : quiet w (unlock w).
Proof.
  unfold unlock. simpl.
  destruct (queue (inst w)) as [|next rest] eqn:Hq.
  - unfold quiet, order. simpl. rewrite Hq, !omap_app. simpl.
    rewrite !app_nil_r. done.
  - destruct (resolve next) as [k|k|k] eqn:Hn; simpl.
    all: unfold fulfil, rejectBusy; simpl; case_bool_decide; simpl.
    all: unfold quiet, order; simpl; rewrite Hq, ?omap_app; simpl.
    all: rewrite ?Hn; simpl; rewrite ?app_nil_r.
    all: try (destruct (frame_of k (frames w)); rewrite ?omap_app; simpl;
              rewrite ?app_nil_r).
    all: split; [done|]; split; [|split; [by apply sublist_cons|done]].
    all: try (apply sublist_app; [done|]; apply sublist_app; [done|];
              by apply sublist_cons).
    all: by rewrite <- (assoc_L (++)).
Qed.

Lemma quiet_unlocks (n : nat) (w : Loop) : quiet w (Nat.iter n unlock w).
Proof.
  induction n as [|n IH]; simpl; [apply quiet_refl|].
  eapply quiet_trans; [exact IH|apply quiet_unlock].
Qed.

Lemma quiet_onTimeout (k : nat) (w : Loop) : quiet w (onTimeout k (clearTimeout k w)).
Proof.
  unfold onTimeout, rejectBusy. simpl.
  set (q' := match findIndex _ _ with Some idx => _ | None => _ end).
  assert (q' `sublist_of` queue (inst w)) as Hq'.
  { subst q'. destruct (findIndex _ _); [apply sublist_delete|done]. }
  assert (∀ t, omap resumed t = [] →
    omap resumed (trace w ++ t) ++ microtasks w
      ++ ((λ item, fn_id (resolve item)) <$> q') `sublist_of` order w) as Ho.
  { intros t Ht. rewrite omap_app, Ht, app_nil_r. unfold order.
    apply sublist_app; [done|]. apply sublist_app; [done|].
    by apply fmap_sublist. }
  case_bool_decide; simpl; repeat split; simpl; try done.
  - unfold order; simpl. specialize (Ho [] eq_refl). by rewrite app_nil_r in Ho.
  - unfold order; simpl. destruct (frame_of k (frames w)).
    + by apply Ho.
    + specialize (Ho [] eq_refl). by rewrite app_nil_r in Ho.
  - destruct (frame_of k (frames w)); [|done]. by rewrite omap_app, app_nil_r.
Qed.

Lemma quiet_resume (w : Loop) : quiet w (step Resume w).
Proof.
  simpl. destruct (microtasks w) as [|k rest] eqn:Hm; [apply quiet_refl|].
  destruct (frame_of k (frames w)) as [s|].
  - unfold lock; simpl. destruct (locked (inst w)); repeat split; simpl; try done.
    all: try (by rewrite omap_app, app_nil_r).
    all: unfold order; simpl; rewrite Hm, omap_app; simpl;
      by rewrite <- (assoc_L (++)).
  - repeat split; simpl; try done. unfold order; simpl. rewrite Hm.
    apply sublist_app; [done|]. by apply sublist_cons.
Qed.

Lemma fifo_inv_step (ev : Event) (w : Loop) : fifo_inv w → fifo_inv (step ev w).
Proof.
  intros H. destruct ev as [s|s e|k| |].
  - simpl. destruct (locked (inst w)) eqn:Hl.
    + unfold waitForFree. rewrite Hl. simpl.
      destruct H as (Hs & Hb & Hw & Hq). repeat split.
      * unfold order; simpl. rewrite omap_app, app_nil_r, fmap_app. simpl.
        rewrite !(assoc_L (++)). apply StronglySorted_app. split; [|split].
        -- intros x1 x2 Hx1 Hx2. apply list_elem_of_singleton in Hx2 as ->.
           rewrite Forall_forall in Hb. apply Hb. unfold order.
           by rewrite (assoc_L (++)).
        -- unfold order in Hs. by rewrite (assoc_L (++)) in Hs.
        -- repeat constructor.
      * unfold order; simpl. rewrite omap_app, app_nil_r, fmap_app. simpl.
        rewrite !(assoc_L (++)). apply Forall_app. split.
        -- unfold order in Hb. rewrite (assoc_L (++)) in Hb.
           eapply Forall_impl; [exact Hb|]. simpl. lia.
        -- repeat constructor.
      * simpl. apply Forall_app. split; [done|]. repeat constructor. by eexists.
      * cbn [trace promises]. rewrite omap_app, Hq, seq_S. done.
    + eapply fifo_inv_quiet; [exact H|apply quiet_lock_direct].
  - simpl. eapply fifo_inv_quiet; [|apply quiet_unlocks].
    destruct H as (Hs & Hb & Hw & Hq). by repeat split.
  - simpl. case_bool_decide; [|done].
    eapply fifo_inv_quiet; [exact H|apply quiet_onTimeout].
  - eapply fifo_inv_quiet; [exact H|apply quiet_resume].
  - eapply fifo_inv_quiet; [exact H|apply quiet_unlock].
Qed.

Lemma fifo_inv_run (evs : list Event) (w : Loop) : fifo_inv w → fifo_inv (run evs w).
Proof.
  revert w. induction evs as [|ev evs IH]; intros w H; simpl; [done|].
  apply IH, fifo_inv_step, H.
Qed.

Lemma fifo_inv_start (m : ManagedInstance) : queue m = [] → fifo_inv (start m).
Proof.
  intros Hq. unfold fifo_inv, order. simpl. rewrite Hq. simpl.
  repeat split; constructor.
Qed.

End FifoFacts.





(** Two callers queued behind socket 1 are served in the order they
    arrived, each after the close of the holder before it. *)
Example two_waiters_in_order :
  Instance.trace
    (Instance.run
       [Instance.Acquire 1; Instance.Acquire 2; Instance.Acquire 3;
        Instance.Emit 1 Instance.Close; Instance.Resume;
        Instance.Emit 2 Instance.Close; Instance.Resume]
       (Instance.start (Instance.new "db" None true)))
  = [Instance.Granted 1 None; Instance.Queued 0 2; Instance.Queued 1 3;
     Instance.Released; Instance.Granted 2 (Some 0%nat);
     Instance.Released; Instance.Granted 3 (Some 1%nat)].
Proof. vm_compute. done. Qed.

(** * Release on socket termination *)

(** C3. Socket 1 holds the lock and socket 2 waits. Socket 1 emits 'error'
    and socket 2 is granted the lock; socket 1 then emits 'close', and the
    second listener that [lock] left on it runs [unlock] again: the lock is
    taken from socket 2, which has emitted nothing, and socket 3 is granted
    it. [unlock] has run twice for the one holder. *)
Lemma unlock_runs_twice_for_one_holder :
  let w := Instance.run
             [Instance.Acquire 1; Instance.Acquire 2; Instance.Emit 1 Instance.Error;
              Instance.Resume; Instance.Emit 1 Instance.Close; Instance.Acquire 3]
             (Instance.start (Instance.new "db" None true)) in
  Instance.trace w
  = [Instance.Granted 1 None; Instance.Queued 0 2; Instance.Released;
     Instance.Granted 2 (Some 0%nat); Instance.Released; Instance.Granted 3 None]
  ∧ length (filter (λ o, Instance.is_released o = true) (Instance.trace w)) = 2%nat
  ∧ Instance.activeSocket (Instance.inst w) = Some 3%nat
  ∧ Instance.listeners w
    = [(2%nat, Instance.Close); (2%nat, Instance.Error);
       (3%nat, Instance.Close); (3%nat, Instance.Error)].
Proof. vm_compute. done. Qed.

(** * Timeout of a queued caller *)

Lemma findIndex_wrappers (k : nat) (q : list Instance.QueueItem) :
  Forall Instance.is_wrapper q →
  Instance.findIndex
    (λ item, bool_decide (Instance.resolve item = Instance.PromiseResolve k)) q = None.
Proof.
  induction 1 as [|item q [k' Hk'] _ IH]; simpl; [done|].
  rewrite bool_decide_eq_false_2 by (rewrite Hk'; discriminate).
  by rewrite IH.
Qed.

(** C6. The timer's callback looks its entry up by comparing the entry's
    [resolve], which is the wrapper closure, with the promise's own
    [resolve]: no entry ever matches, so on every run a timeout leaves the
    queue as it was. In the run below socket 2 times out with the busy error
    and its entry stays; socket 3 queues behind it; when socket 1 closes,
    [unlock] takes the dead entry off, schedules nobody, and socket 3 is left
    queued on a free instance. *)
Theorem timeout_leaves_entry_in_queue :
  (∀ (name : string) (dir : option string) (mem : bool)
     (evs : list Instance.Event) (k : nat),
     let w := Instance.run evs (Instance.start (Instance.new name dir mem)) in
     Instance.queue (Instance.inst (Instance.step (Instance.TimerFires k) w))
     = Instance.queue (Instance.inst w))
  ∧ (let w := Instance.run
                [Instance.Acquire 1; Instance.Acquire 2; Instance.TimerFires 0]
                (Instance.start (Instance.new "db" None true)) in
     Instance.trace w
     = [Instance.Granted 1 None; Instance.Queued 0 2; Instance.Busy 0 2]
     ∧ Instance.queue (Instance.inst w)
       = [Instance.mkItem (Instance.ResolveWrapper 0) (Instance.PromiseReject 0)]
     ∧ let w' := Instance.run [Instance.Acquire 3; Instance.Emit 1 Instance.Close] w in
       Instance.locked (Instance.inst w') = false
       ∧ Instance.microtasks w' = []
       ∧ Instance.queue (Instance.inst w')
         = [Instance.mkItem (Instance.ResolveWrapper 1) (Instance.PromiseReject 1)]).
Proof.
  split; [|vm_compute; done].
  intros name dir mem evs k w.
  assert (Instance.fifo_inv w) as (_ & _ & Hw & _).
  { apply fifo_inv_run, fifo_inv_start. done. }
  simpl. case_bool_decide; [|done].
  unfold Instance.onTimeout. simpl. rewrite findIndex_wrappers by done.
  unfold Instance.rejectBusy. simpl. by case_bool_decide.
Qed.

(** * Engine boot *)

Section InitFacts.
Import Instance.

Lemma initialize_enter_set (m : ManagedInstance) (host : Host) (h : PGlite) :
  db m = Some h → initialize_enter m host = (m, host, Returned h).
Proof. intros H. unfold initialize_enter. by rewrite H. Qed.

Lemma initialize_set (sig : ReadySignal) (m : ManagedInstance) (host : Host)
    (h : PGlite) :
  db m = Some h → initialize sig m host = (m, host, inr (Some h)).
Proof. intros H. unfold initialize. by rewrite (initialize_enter_set m host h H). Qed.

Lemma initialize_enter_awaiting (m m1 : ManagedInstance) (host host1 : Host)
    (h : PGlite) :
  initialize_enter m host = (m1, host1, Awaiting h) →
  db m = None ∧ db m1 = Some h ∧ booted host1 = S (booted host)
  ∧ engineId h = booted host ∧ ready host1 = ready host.
Proof.
  unfold initialize_enter. destruct (db m) as [h0|]; [done|].
  destruct (memoryMode m).
  - intros [= <- <- <-]. done.
  - destruct (dataDir m) as [d|]; [|done].
    unfold ensureDir. case_bool_decide; intros [= <- <- <-]; done.
Qed.

Lemma initialize_enter_returned (m m1 : ManagedInstance) (host host1 : Host)
    (h : PGlite) :
  initialize_enter m host = (m1, host1, Returned h) →
  m1 = m ∧ host1 = host ∧ db m = Some h.
Proof.
  unfold initialize_enter. destruct (db m) as [h0|].
  - by intros [= <- <- <-].
  - destruct (memoryMode m); [done|]. destruct (dataDir m); [|done].
    unfold ensureDir. by case_bool_decide.
Qed.

End InitFacts.

(** C4 (as amended). When the first [initialize()] of an instance fails
    because the ready signal rejects, the error goes to the caller and the
    engine handle is the engine object just constructed; any later
    [initialize()] returns that handle at once, with nothing changed. *)
Theorem boot_failure_keeps_handle (m : Instance.ManagedInstance) (host : Instance.Host) :
  Instance.db m = None →
  Instance.memoryMode m = true ∨ is_Some (Instance.dataDir m) →
  ∃ h m1 host1,
    Instance.initialize Instance.Rejects m host
    = (m1, host1, inl (Instance.BootFailed h))
    ∧ Instance.db m1 = Some h
    ∧ Instance.booted host1 = S (Instance.booted host)
    ∧ ∀ sig, Instance.initialize sig m1 host1 = (m1, host1, inr (Some h)).
Proof.
  intros Hdb Hmode. unfold Instance.initialize, Instance.initialize_enter.
  rewrite Hdb. destruct (Instance.memoryMode m) eqn:Hmem.
  - simpl. eexists _, _, _. split; [done|]. split; [done|]. split; [done|].
    intros sig. by apply initialize_set.
  - destruct Hmode as [|[d Hd]]; [done|]. rewrite Hd. simpl.
    eexists _, _, _. split; [done|]. split; [done|].
    split; [unfold Instance.ensureDir; by case_bool_decide|].
    intros sig. by apply initialize_set.
Qed.

Lemma boot_failure_keeps_handle_witness :
  ∃ h m1 host1,
    Instance.initialize Instance.Rejects (Instance.new "db" None true)
      (Instance.mkHost ∅ 0 [] [])
    = (m1, host1, inl (Instance.BootFailed h))
    ∧ Instance.db m1 = Some h
    ∧ Instance.booted host1 = 1%nat
    ∧ ∀ sig, Instance.initialize sig m1 host1 = (m1, host1, inr (Some h)).
Proof.
  apply (boot_failure_keeps_handle (Instance.new "db" None true)
           (Instance.mkHost ∅ 0 [] [])); [reflexivity | left; reflexivity].
Defined.

(** C4 as stated fails: after a boot whose ready signal rejects, the engine
    handle is not absent, and the next [initialize()] returns it without
    constructing an engine. *)
Lemma boot_failure_handle_counterexample :
  let r := Instance.initialize Instance.Rejects (Instance.new "db" None true)
             (Instance.mkHost ∅ 0 [] []) in
  r.2 = inl (Instance.BootFailed (Instance.mkPGlite 0 None))
  ∧ Instance.db r.1.1 = Some (Instance.mkPGlite 0 None)
  ∧ Instance.db r.1.1 ≠ None
  ∧ Instance.initialize Instance.Resolves r.1.1 r.1.2
    = (r.1.1, r.1.2, inr (Some (Instance.mkPGlite 0 None))).
Proof. repeat split; done. Qed.

(** C5 (as amended). A call of [initialize()] that follows one which
    returned a handle returns the same handle and changes nothing. While a
    first call is suspended on the ready signal, a second call constructs no
    engine and returns the same handle at once: it does not wait for the
    boot in flight. *)
Theorem initialize_idempotent_no_wait (m : Instance.ManagedInstance)
    (host : Instance.Host) :
  (∀ sig1 m1 host1 h,
     Instance.initialize sig1 m host = (m1, host1, inr (Some h)) →
     ∀ sig2, Instance.initialize sig2 m1 host1 = (m1, host1, inr (Some h)))
  ∧ (∀ m1 host1 h,
       Instance.initialize_enter m host = (m1, host1, Instance.Awaiting h) →
       Instance.initialize_enter m1 host1 = (m1, host1, Instance.Returned h)
       ∧ Instance.booted host1 = S (Instance.booted host)
       ∧ Instance.ready host1 = Instance.ready host).
Proof.
  split.
  - intros sig1 m1 host1 h H sig2. apply initialize_set.
    unfold Instance.initialize in H.
    destruct (Instance.initialize_enter m host) as [[m' host'] e] eqn:He.
    destruct e as [h'|h'|err].
    + inversion H; subst.
      by apply initialize_enter_returned in He as (-> & _ & Hdb).
    + destruct sig1; simpl in H; [|done]. by inversion H; subst.
    + done.
  - intros m1 host1 h He.
    apply initialize_enter_awaiting in He as (_ & Hdb & Hb & _ & Hr).
    split; [by apply initialize_enter_set|done].
Qed.

(** C5 as stated fails for the later of two concurrent callers: the first
    call is suspended on the ready signal of engine 0, which has not
    resolved, and the second call already has that engine as its result. *)
Lemma initialize_no_wait_counterexample :
  let first := Instance.initialize_enter (Instance.new "db" None true)
                 (Instance.mkHost ∅ 0 [] []) in
  let second := Instance.initialize_enter first.1.1 first.1.2 in
  first.2 = Instance.Awaiting (Instance.mkPGlite 0 None)
  ∧ second.2 = Instance.Returned (Instance.mkPGlite 0 None)
  ∧ Instance.ready second.1.2 = []
  ∧ Instance.booted second.1.2 = 1%nat.
Proof. repeat split; done. Qed.

(** * Pool capacity *)

Section NumberFacts.

Lemma size_ge_false_le (size : nat) (n : Js.Number) :
  Js.is_count n → Js.size_ge size n = false → Js.size_le (S size) n.
Proof.
  destruct n as [q| | |]; simpl; try done.
  intros [k Hk] Hge.
  assert (¬ (q <= inject_Z (Z.of_nat size))%Q) as Hn.
  { intros H. apply Qle_bool_iff in H. congruence. }
  rewrite Hk in Hn. rewrite <- Zle_Qle in Hn.
  rewrite Hk, <- Zle_Qle. lia.
Qed.

Lemma size_le_mono (size size' : nat) (n : Js.Number) :
  (size' ≤ size)%nat → Js.size_le size n → Js.size_le size' n.
Proof.
  destruct n as [q| | |]; simpl; try done.
  intros Hle H. eapply Qle_trans; [|exact H]. rewrite <- Zle_Qle. lia.
Qed.

Lemma is_count_constructs (n : Js.Number) :
  Js.is_count n → Js.listeners_out_of_range n = false.
Proof.
  destruct n as [q| | |]; simpl; try done.
  intros [k Hk]. apply negb_false_iff, Qle_bool_iff. rewrite Hk.
  change 10%Q with (inject_Z 10). rewrite <- inject_Z_plus.
  change 0%Q with (inject_Z 0). rewrite <- Zle_Qle. lia.
Qed.

Lemma is_count_empty (n : Js.Number) : Js.is_count n → Js.size_le O n.
Proof.
  destruct n as [q| | |]; simpl; try done.
  intros [k Hk]. rewrite Hk. change 0%Q with (inject_Z 0).
  rewrite <- Zle_Qle. lia.
Qed.

End NumberFacts.

Section PoolFacts.
Import Pool.
Variable path_join : string → string → string.
Variable closing :
  gmap string Instance.ManagedInstance → list (string * Instance.ManagedInstance).

Lemma resolve_full (name : string) (pool : InstancePool) :
  instances pool !! name = None →
  Js.size_ge (size (instances pool)) (maxInstances pool) = true →
  resolve path_join name pool = inl (CapacityExceeded (maxInstances pool) name).
Proof. intros Hn Hfull. unfold resolve. by rewrite Hn, Hfull. Qed.

Lemma resolve_capacity (name : string) (pool pool1 : InstancePool)
    (instance : Instance.ManagedInstance) :
  Js.is_count (maxInstances pool) →
  within_capacity pool →
  resolve path_join name pool = inr (pool1, instance) →
  within_capacity pool1
  ∧ maxInstances pool1 = maxInstances pool
  ∧ is_Some (instances pool1 !! name).
Proof.
  unfold resolve, within_capacity. intros Hcount Hc.
  destruct (instances pool !! name) as [i|] eqn:Hn.
  - intros [= <- <-]. by rewrite Hn.
  - destruct (Js.size_ge (size (instances pool)) (maxInstances pool)) eqn:Hfull;
      [done|].
    destruct (autoProvision pool); [|done]. simpl.
    intros [= <- <-]. simpl. rewrite map_size_insert_None by done.
    split; [by apply size_ge_false_le|]. split; [done|].
    rewrite lookup_insert_eq. by eexists.
Qed.

Lemma getOrCreate_capacity (sig : Instance.ReadySignal) (name : string)
    (pool : InstancePool) (host : Instance.Host) :
  Js.is_count (maxInstances pool) →
  within_capacity pool →
  within_capacity (getOrCreate path_join sig name pool host).1.1
  ∧ maxInstances (getOrCreate path_join sig name pool host).1.1 = maxInstances pool.
Proof.
  intros Hcount Hc. unfold getOrCreate.
  destruct (resolve path_join name pool) as [e|[pool1 instance]] eqn:Hr; [done|].
  apply resolve_capacity in Hr as (Hc1 & Hm & [i Hi]); [|done..].
  destruct (Instance.initialize sig instance host) as [[instance' host'] r].
  assert (within_capacity
            (set_instances (<[name:=instance']> (instances pool1)) pool1)) as Hc2.
  { unfold within_capacity in *. simpl.
    by rewrite map_size_insert_Some by (by eexists). }
  by destruct r.
Qed.

Lemma getOrCreate_fresh (name : string) (pool : InstancePool) (host : Instance.Host) :
  instances pool !! name = None →
  Js.size_ge (size (instances pool)) (maxInstances pool) = false →
  autoProvision pool = true →
  ∃ instance host',
    getOrCreate path_join Instance.Resolves name pool host
    = (set_instances (<[name := instance]> (instances pool)) pool, host', inr instance).
Proof.
  intros Hn Hroom Hauto. unfold getOrCreate, resolve.
  rewrite Hn, Hauto, Hroom. simpl.
  unfold Instance.initialize, Instance.initialize_enter. simpl.
  destruct (memoryMode pool); simpl; rewrite insert_insert_eq; eauto.
Qed.

Lemma exec_max (op : Op) (st : InstancePool * Instance.Host) :
  maxInstances (exec path_join closing op st).1 = maxInstances st.1.
Proof.
  destruct op as [name sig|name|]; simpl; [| |done].
  - unfold getOrCreate.
    destruct (resolve path_join name st.1) as [e|[pool1 instance]] eqn:Hr; [done|].
    assert (maxInstances pool1 = maxInstances st.1) as Hm.
    { unfold resolve in Hr. destruct (instances st.1 !! name).
      - by inversion Hr.
      - destruct (Js.size_ge _ _); [done|].
        destruct (autoProvision st.1); [|done]. by inversion Hr. }
    destruct (Instance.initialize sig instance st.2) as [[instance' host'] r].
    by destruct r.
  - unfold closeInstance. by destruct (instances st.1 !! name).
Qed.

Lemma execAll_max (ops : list Op) (st : InstancePool * Instance.Host) :
  maxInstances (execAll path_join closing ops st).1 = maxInstances st.1.
Proof.
  revert st. induction ops as [|op ops IH]; intros st; simpl; [done|].
  by rewrite IH, exec_max.
Qed.

Lemma exec_capacity (op : Op) (st : InstancePool * Instance.Host) :
  Js.is_count (maxInstances st.1) →
  within_capacity st.1 →
  within_capacity (exec path_join closing op st).1
  ∧ maxInstances (exec path_join closing op st).1 = maxInstances st.1.
Proof.
  intros Hcount Hc. destruct op as [name sig|name|]; simpl.
  - by apply getOrCreate_capacity.
  - unfold closeInstance. destruct (instances st.1 !! name) as [i|] eqn:Hn; [|done].
    simpl. split; [|done]. unfold within_capacity in *. simpl.
    eapply size_le_mono; [|exact Hc].
    pose proof (map_size_delete name (instances st.1)) as Hd.
    rewrite Hn in Hd. simpl in Hd. lia.
  - split; [|done]. unfold within_capacity in *. simpl.
    eapply size_le_mono; [|exact Hc]. rewrite map_size_empty. lia.
Qed.

Lemma execAll_capacity (ops : list Op) (st : InstancePool * Instance.Host) :
  Js.is_count (maxInstances st.1) →
  within_capacity st.1 →
  within_capacity (execAll path_join closing ops st).1.
Proof.
  revert st. induction ops as [|op ops IH]; intros st Hcount Hc; simpl; [done|].
  destruct (exec_capacity op st Hcount Hc) as [Hc' Hm].
  apply IH; [by rewrite Hm|done].
Qed.

End PoolFacts.

(** C8 (as amended). For a pool whose [maxInstances] is a whole number that
    is not negative (or [Infinity]), the constructor returns the pool and,
    whatever calls are made on it, the number of instances stays within
    [maxInstances]; [getOrCreate] of an absent name on a full pool fails with
    the capacity error and leaves pool and host as they were, nothing having
    been constructed; and with [maxInstances = 1], "a" is created, "b" is
    refused, and once "a" is closed "b" is created. *)
Theorem pool_capacity (path_join : string → string → string)
    (closing : gmap string Instance.ManagedInstance
               → list (string * Instance.ManagedInstance)) :
  (∀ options host ops,
     Js.is_count (Pool.maxInstances (Pool.new options)) →
     let pool := (Pool.execAll path_join closing ops (Pool.new options, host)).1 in
     Pool.construct options = inr (Pool.new options)
     ∧ Js.size_le (size (Pool.instances pool)) (Pool.maxInstances pool)
     ∧ Pool.maxInstances pool = Pool.maxInstances (Pool.new options))
  ∧ (∀ sig name pool host,
       Pool.instances pool !! name = None →
       Js.size_ge (size (Pool.instances pool)) (Pool.maxInstances pool) = true →
       Pool.getOrCreate path_join sig name pool host
       = (pool, host, inl (Pool.CapacityExceeded (Pool.maxInstances pool) name)))
  ∧ (∀ host,
       let pool0 := Pool.new (Pool.Options.mk None None (Some (Js.Finite 1)) None) in
       let a1 := Pool.getOrCreate path_join Instance.Resolves "a" pool0 host in
       let b1 := Pool.getOrCreate path_join Instance.Resolves "b" a1.1.1 a1.1.2 in
       let closed := Pool.closeInstance "a" b1.1.1 b1.1.2 in
       let b2 := Pool.getOrCreate path_join Instance.Resolves "b" closed.1 closed.2 in
       Pool.construct (Pool.Options.mk None None (Some (Js.Finite 1)) None) = inr pool0
       ∧ is_Some (Pool.instances a1.1.1 !! "a") ∧ (∃ i, a1.2 = inr i)
       ∧ b1.2 = inl (Pool.CapacityExceeded (Js.Finite 1) "b")
       ∧ b1.1.1 = a1.1.1
       ∧ closed.1 = pool0
       ∧ is_Some (Pool.instances b2.1.1 !! "b") ∧ (∃ i, b2.2 = inr i)).
Proof.
  split; [|split].
  - intros options host ops Hcount pool. subst pool. split.
    { unfold Pool.construct. by rewrite is_count_constructs. }
    assert (Pool.within_capacity (Pool.new options)) as Hc.
    { unfold Pool.within_capacity. cbn [Pool.instances Pool.new].
      rewrite map_size_empty. by apply is_count_empty. }
    split; [by apply execAll_capacity|]. by rewrite execAll_max.
  - intros sig name pool host Hn Hfull. unfold Pool.getOrCreate.
    by rewrite resolve_full.
  - intros host pool0 a1 b1 closed b2.
    assert (Hpool0 : pool0 = Pool.mkPool "./data" false (Js.Finite 1) true ∅) by done.
    split; [done|].
    destruct (getOrCreate_fresh path_join "a" pool0 host) as (iA & hA & HA).
    { by rewrite Hpool0. }
    { rewrite Hpool0. simpl. by rewrite map_size_empty. }
    { by rewrite Hpool0. }
    fold a1 in HA.
    assert (Hb1 : b1 = (a1.1.1, a1.1.2, inl (Pool.CapacityExceeded (Js.Finite 1) "b"))).
    { subst b1. rewrite HA. simpl. unfold Pool.getOrCreate.
      rewrite resolve_full; simpl.
      - done.
      - by rewrite lookup_insert_ne.
      - rewrite map_size_insert_None by done. by rewrite map_size_empty. }
    assert (Hclosed : closed.1 = pool0).
    { subst closed. rewrite Hb1, HA. simpl. unfold Pool.closeInstance. simpl.
      rewrite lookup_insert_eq. simpl. rewrite delete_insert_eq.
      rewrite Hpool0. simpl. by rewrite delete_empty. }
    destruct (getOrCreate_fresh path_join "b" closed.1 closed.2) as (iB & hB & HB).
    { by rewrite Hclosed, Hpool0. }
    { rewrite Hclosed, Hpool0. simpl. by rewrite map_size_empty. }
    { by rewrite Hclosed, Hpool0. }
    fold b2 in HB.
    rewrite Hb1, HA, HB. simpl. rewrite !lookup_insert_eq.
    repeat split; eauto.
Qed.

(** C8 as stated fails for pools the constructor accepts. With
    [maxInstances = -1] the empty pool already holds more than its limit;
    with [maxInstances = 2.5] a third instance is created, since 2 >= 2.5 is
    false, and the pool holds 3. *)
Lemma pool_capacity_counterexample :
  let join := λ a b : string, a +:+ "/" +:+ b in
  let minus := Pool.Options.mk None (Some true) (Some (Js.Finite (-1))) None in
  let half := Pool.Options.mk None (Some true) (Some (Js.Finite (5 # 2))) None in
  let grown :=
    (Pool.execAll join map_to_list
       [Pool.GetOrCreate "a" Instance.Resolves; Pool.GetOrCreate "b" Instance.Resolves;
        Pool.GetOrCreate "c" Instance.Resolves]
       (Pool.new half, Instance.mkHost ∅ 0 [] [])).1 in
  Pool.construct minus = inr (Pool.new minus)
  ∧ ¬ Js.size_le (size (Pool.instances (Pool.new minus)))
        (Pool.maxInstances (Pool.new minus))
  ∧ Pool.construct half = inr (Pool.new half)
  ∧ size (Pool.instances grown) = 3%nat
  ∧ ¬ Js.size_le (size (Pool.instances grown)) (Pool.maxInstances grown).
Proof.
  intros join minus half grown.
  assert (size (Pool.instances grown) = 3%nat) as Hsize by (vm_compute; reflexivity).
  assert (Pool.maxInstances grown = Js.Finite (5 # 2)) as Hmax
    by (vm_compute; reflexivity).
  split; [vm_compute; reflexivity|]. split.
  { simpl. rewrite map_size_empty. unfold Qle. simpl. lia. }
  split; [vm_compute; reflexivity|]. split; [done|].
  rewrite Hsize, Hmax. simpl. unfold Qle. simpl. lia.
Qed.

(** * Pool constructor *)

Lemma or_falsy {A : Type} `{Js.Truthy A} (x : option A) (d : A) :
  Js.falsy x → Js.or x d = d.
Proof. destruct x as [v|]; simpl; [|done]. unfold Js.or. by intros ->. Qed.

(** C10. When [options.maxInstances] is 0, or undefined, or any other falsy
    number, the pool has [maxInstances = 100] and the constructor returns
    it; no options object gives a pool whose [maxInstances] is 0; in the same
    way a falsy [baseDir] (undefined or the empty string) gives './data' and
    a falsy [memoryMode] gives [false]. *)
Theorem constructor_falsy_defaults (options : Pool.Options.t) :
  (Js.falsy (Pool.Options.maxInstances options) →
   Pool.maxInstances (Pool.new options) = Js.Finite 100)
  ∧ (Pool.Options.maxInstances options = Some (Js.Finite 0) →
     Pool.maxInstances (Pool.new options) = Js.Finite 100)
  ∧ (∀ q, Pool.maxInstances (Pool.new options) = Js.Finite q → ¬ (q == 0)%Q)
  ∧ (Js.falsy (Pool.Options.baseDir options) →
     Pool.baseDir (Pool.new options) = "./data")
  ∧ (Pool.Options.baseDir options = Some EmptyString →
     Pool.baseDir (Pool.new options) = "./data")
  ∧ (Js.falsy (Pool.Options.memoryMode options) →
     Pool.memoryMode (Pool.new options) = false)
  ∧ (Js.falsy (Pool.Options.maxInstances options) →
     Pool.construct options = inr (Pool.new options)).
Proof.
  assert (Js.falsy (Pool.Options.maxInstances options) →
          Pool.maxInstances (Pool.new options) = Js.Finite 100) as Hmax.
  { unfold Pool.new. simpl. apply or_falsy. }
  split; [done|]. split; [|split; [|split; [|split; [|split]]]].
  - intros H. apply Hmax. by rewrite H.
  - unfold Pool.new. simpl. unfold Js.or. intros q.
    destruct (Pool.Options.maxInstances options) as [v|].
    + destruct (Js.truthy v) eqn:Hv.
      * intros ->. simpl in Hv. apply negb_true_iff in Hv. intros Hq.
        apply Qeq_bool_iff in Hq. congruence.
      * intros [= <-]. done.
    + intros [= <-]. done.
  - unfold Pool.new. simpl. apply or_falsy.
  - unfold Pool.new. simpl. by intros ->.
  - unfold Pool.new. simpl. apply or_falsy.
  - intros H. unfold Pool.construct. by rewrite (Hmax H).
Qed.

(** * Registry: register, unregister, lookups *)

Section RegistryFacts.
Import Registry.

Lemma cleanup_registry (alive : Z → bool) (disk : File) :
  loadRegistry (cleanupStaleInstances alive disk).1
  = filter (λ kv : string * Entry, alive (pid kv.2) = true) (loadRegistry disk).
Proof.
  unfold cleanupStaleInstances.
  pose proof (sweep_registry alive (loadRegistry disk) O) as Hreg.
  pose proof (sweep_count alive (map_to_list (loadRegistry disk)) (loadRegistry disk) O)
    as Hcnt.
  destruct (foldl (sweepEntry alive) (loadRegistry disk, O)
              (map_to_list (loadRegistry disk))) as [r' c].
  simpl in *. destruct (0 <? c)%nat eqn:Hc; simpl; [done|].
  apply Nat.ltb_ge in Hc. symmetry.
  apply map_filter_id. intros k e Hk. simpl.
  destruct (alive (pid e)) eqn:He; [done|].
  assert ((k, e) ∈ filter (λ kv : string * Entry, alive (pid kv.2) = false)
                     (map_to_list (loadRegistry disk))) as Hin.
  { apply list_elem_of_filter. split; [done|]. by apply elem_of_map_to_list. }
  apply list_elem_of_lookup in Hin as [i Hi]. apply lookup_lt_Some in Hi. lia.
Qed.

Lemma cleanup_count (alive : Z → bool) (disk : File) :
  (cleanupStaleInstances alive disk).2
  = size (filter (λ kv : string * Entry, alive (pid kv.2) = false) (loadRegistry disk)).
Proof.
  unfold cleanupStaleInstances.
  pose proof (sweep_count alive (map_to_list (loadRegistry disk)) (loadRegistry disk) O)
    as Hcnt.
  destruct (foldl (sweepEntry alive) (loadRegistry disk, O)
              (map_to_list (loadRegistry disk))) as [r' c].
  simpl in *. by rewrite Hcnt, filter_to_list_length.
Qed.

Lemma cleanup_untouched (alive : Z → bool) (disk : File) :
  (cleanupStaleInstances alive disk).2 = O →
  (cleanupStaleInstances alive disk).1 = disk.
Proof.
  unfold cleanupStaleInstances.
  destruct (foldl (sweepEntry alive) (loadRegistry disk, O)
              (map_to_list (loadRegistry disk))) as [r' c].
  simpl. by intros ->.
Qed.

Lemma size_live_dead (alive : Z → bool) (r : gmap string Entry) :
  (size (filter (λ kv : string * Entry, alive (pid kv.2) = true) r)
   + size (filter (λ kv : string * Entry, alive (pid kv.2) = false) r))%nat
  = size r.
Proof.
  pose proof (map_filter_union_complement
    (λ kv : string * Entry, alive (pid kv.2) = true) r) as Hu.
  pose proof (map_disjoint_filter_complement
    (λ kv : string * Entry, alive (pid kv.2) = true) r) as Hd.
  apply map_size_disj_union in Hd. rewrite Hu in Hd.
  assert (filter (λ v : string * Entry, ¬ alive (pid v.2) = true) r
          = filter (λ kv : string * Entry, alive (pid kv.2) = false) r) as Heq.
  { apply map_filter_ext. intros k e _. simpl.
    destruct (alive (pid e)); split; congruence. }
  rewrite Heq in Hd. lia.
Qed.

End RegistryFacts.

Lemma getProperty_own (key : string) (e : Registry.Entry)
    (instances : gmap string Registry.Entry) :
  instances !! key = Some e → Registry.getProperty key instances = Registry.OwnEntry e.
Proof. intros H. unfold Registry.getProperty. by rewrite H. Qed.

Lemma getProperty_own_inv (key : string) (e : Registry.Entry)
    (instances : gmap string Registry.Entry) :
  Registry.getProperty key instances = Registry.OwnEntry e → instances !! key = Some e.
Proof.
  unfold Registry.getProperty. destruct (instances !! key); [congruence|].
  by destruct (Registry.inherited key).
Qed.

Lemma setProperty_plain (key : string) (e : Registry.Entry)
    (instances : gmap string Registry.Entry) :
  key ≠ "__proto__" ∨ is_Some (instances !! key) →
  Registry.setProperty key e instances = <[key := e]> instances.
Proof.
  intros H. unfold Registry.setProperty. destruct (decide (key = "__proto__")); [|done].
  destruct H as [H|[old H]]; [done|]. by rewrite H.
Qed.

(** X1. For a data directory other than '__proto__' (or one the registry
    already has as its own key), what [registerInstance] wrote is what
    [findInstanceByDataDir] reads back, with the fixed version string, and on
    a missing or unparsable file the registry written holds the new entry
    alone. For '__proto__' with no own key the assignment stores nothing: the
    registry's content stays as it was and the lookup returns the inherited
    member. The other data directories read as before in every case. *)
Theorem register_then_find (now dataDir : string) (p pd : Z) (disk : Registry.File) :
  let disk' := Registry.registerInstance now dataDir p pd disk in
  (dataDir ≠ "__proto__" ∨ is_Some (Registry.loadRegistry disk !! dataDir) →
   Registry.findInstanceByDataDir dataDir disk'
   = Registry.OwnEntry (Registry.mkEntry p pd now "17.5")
   ∧ (disk = Registry.Missing ∨ disk = Registry.Unparsable →
      Registry.loadRegistry disk'
      = {[ dataDir := Registry.mkEntry p pd now "17.5" ]}))
  ∧ (dataDir = "__proto__" → Registry.loadRegistry disk !! dataDir = None →
     Registry.loadRegistry disk' = Registry.loadRegistry disk
     ∧ Registry.findInstanceByDataDir dataDir disk'
       = Registry.PrototypeMember "__proto__")
  ∧ (∀ other, other ≠ dataDir →
       Registry.findInstanceByDataDir other disk'
       = Registry.findInstanceByDataDir other disk).
Proof.
  intros disk'. subst disk'.
  unfold Registry.findInstanceByDataDir, Registry.registerInstance,
    Registry.saveRegistry. simpl. split; [|split].
  - intros Hplain. rewrite setProperty_plain by done. split.
    + apply getProperty_own, lookup_insert_eq.
    + intros [->| ->]; simpl; apply insert_empty.
  - intros -> Hnone. unfold Registry.setProperty. simpl. rewrite Hnone.
    split; [done|]. unfold Registry.getProperty. by rewrite Hnone.
  - intros other Hne. unfold Registry.getProperty, Registry.setProperty.
    destruct (decide (dataDir = "__proto__")) as [->|Hproto].
    + destruct (Registry.loadRegistry disk !! "__proto__"); [|done].
      by rewrite lookup_insert_ne.
    + by rewrite lookup_insert_ne.
Qed.

(** X2. After [unregisterInstance] the data directory has no entry of its
    own: the lookup returns [null], or the inherited member if the name is
    one of [Object.prototype]'s; no other entry is touched; a second call
    changes nothing; on a data directory that had no own entry the registry's
    content stays as it was, and a [registerInstance] of it is undone. *)
Theorem unregister_removes (dataDir : string) (disk : Registry.File) :
  let disk' := Registry.unregisterInstance dataDir disk in
  Registry.loadRegistry disk' !! dataDir = None
  ∧ Registry.findInstanceByDataDir dataDir disk'
    = (if Registry.inherited dataDir then Registry.PrototypeMember dataDir
       else Registry.Nothing)
  ∧ (∀ other, other ≠ dataDir →
       Registry.findInstanceByDataDir other disk'
       = Registry.findInstanceByDataDir other disk)
  ∧ Registry.unregisterInstance dataDir disk' = disk'
  ∧ (Registry.loadRegistry disk !! dataDir = None →
     Registry.loadRegistry disk' = Registry.loadRegistry disk
     ∧ ∀ now p pd,
         Registry.loadRegistry
           (Registry.unregisterInstance dataDir
              (Registry.registerInstance now dataDir p pd disk))
         = Registry.loadRegistry disk).
Proof.
  intros disk'. subst disk'.
  unfold Registry.findInstanceByDataDir, Registry.unregisterInstance,
    Registry.registerInstance, Registry.saveRegistry. simpl.
  split; [apply lookup_delete_eq|]. split; [|split; [|split]].
  - unfold Registry.getProperty. by rewrite lookup_delete_eq.
  - intros other Hne. unfold Registry.getProperty. by rewrite lookup_delete_ne.
  - by rewrite delete_delete_eq.
  - intros Hnone. split.
    + by apply delete_id.
    + intros now p pd. unfold Registry.setProperty.
      destruct (decide (dataDir = "__proto__")) as [->|Hproto].
      * rewrite Hnone. by apply delete_id.
      * rewrite delete_insert_eq. by apply delete_id.
Qed.

(** X3. For whatever order [Object.entries] lists the registry in,
    [findInstanceByPort] returns an entry that is in the registry under the
    data directory it reports and has the port asked for, and it returns
    [null] exactly when [isPortInRegistry] says no entry has the port. *)
Theorem findInstanceByPort_sound
    (entries : gmap string Registry.Entry → list (string * Registry.Entry))
    (p : Z) (disk : Registry.File) :
  (∀ r, entries r ≡ₚ map_to_list r) →
  (∀ dataDir entry,
     Registry.findInstanceByPort entries p disk = Some (dataDir, entry) →
     Registry.findInstanceByDataDir dataDir disk = Registry.OwnEntry entry
     ∧ Registry.port entry = p)
  ∧ (Registry.findInstanceByPort entries p disk = None
     ↔ Ports.isPortInRegistry disk p = false).
Proof.
  intros Hperm. unfold Registry.findInstanceByPort, Registry.findInstanceByDataDir.
  split.
  - intros dataDir entry Hf. apply find_some in Hf as [Hin Hp]. simpl in Hp.
    split; [|lia]. apply getProperty_own, elem_of_map_to_list. rewrite <- Hperm.
    by apply list_elem_of_In.
  - split.
    + intros Hnone. apply not_true_is_false. intros Hreg.
      apply isPortInRegistry_spec in Hreg as (d & e & Hd & Hp).
      assert (In (d, e) (entries (Registry.loadRegistry disk))) as Hin.
      { apply list_elem_of_In. rewrite Hperm. by apply elem_of_map_to_list. }
      pose proof (find_none _ _ Hnone _ Hin) as Hne. simpl in Hne. lia.
    + intros Hreg.
      destruct (List.find _ _) as [[d e]|] eqn:Hf; [|done].
      apply find_some in Hf as [Hin Hp]. simpl in Hp.
      assert (Ports.isPortInRegistry disk p = true); [|congruence].
      apply isPortInRegistry_spec. exists d, e. split; [|lia].
      apply elem_of_map_to_list. rewrite <- Hperm. by apply list_elem_of_In.
Qed.

Lemma findInstanceByPort_sound_witness :
  Registry.findInstanceByPort map_to_list 12005 (Registry.Json stale_registry)
  = Some ("/srv/old", Registry.mkEntry 12005 4242 "2025-01-01T00:00:00.000Z" "17.5")
  ∧ Registry.findInstanceByDataDir "/srv/old" (Registry.Json stale_registry)
    = Registry.OwnEntry
        (Registry.mkEntry 12005 4242 "2025-01-01T00:00:00.000Z" "17.5").
Proof.
  split; [vm_compute; reflexivity|].
  apply (findInstanceByPort_sound map_to_list 12005 (Registry.Json stale_registry));
    [intros r; reflexivity | vm_compute; reflexivity].
Defined.

(** X4. [cleanupStaleInstances] does not write the file when no entry is
    stale: it returns 0 and the file stays as it is, a missing or unparsable
    one included. Run a second time right after a first, it finds nothing
    more to remove. *)
Theorem cleanupStale_idempotent (alive : Z → bool) (disk : Registry.File) :
  ((∀ dataDir entry, Registry.loadRegistry disk !! dataDir = Some entry →
                     alive (Registry.pid entry) = true) →
   Registry.cleanupStaleInstances alive disk = (disk, O))
  ∧ Registry.cleanupStaleInstances alive Registry.Missing = (Registry.Missing, O)
  ∧ Registry.cleanupStaleInstances alive Registry.Unparsable = (Registry.Unparsable, O)
  ∧ (let first := Registry.cleanupStaleInstances alive disk in
     Registry.cleanupStaleInstances alive first.1 = (first.1, O)).
Proof.
  assert (∀ d, (∀ dataDir entry, Registry.loadRegistry d !! dataDir = Some entry →
                  alive (Registry.pid entry) = true) →
               Registry.cleanupStaleInstances alive d = (d, O)) as Hlive.
  { intros d Hall.
    assert ((Registry.cleanupStaleInstances alive d).2 = O) as Hc.
    { rewrite cleanup_count. apply map_size_empty_iff, map_empty_filter.
      intros k e Hk. simpl. rewrite (Hall k e Hk). done. }
    pose proof (cleanup_untouched alive d Hc) as Hd.
    destruct (Registry.cleanupStaleInstances alive d) as [d' c].
    simpl in *. by subst. }
  split; [apply Hlive|]. split; [done|]. split; [done|].
  intros first. apply Hlive. intros dataDir entry. subst first.
  rewrite cleanup_registry. intros H. by apply map_lookup_filter_Some in H as [_ H].
Qed.

(** X5. For whatever order [Object.entries] lists the registry in,
    [listInstances] has one item per data directory, and an item is listed
    exactly when the registry holds that entry under that data directory;
    right after [cleanupStaleInstances] every item listed has a running
    process. *)
Theorem listInstances_complete
    (entries : gmap string Registry.Entry → list (string * Registry.Entry))
    (alive : Z → bool) (disk : Registry.File) :
  (∀ r, entries r ≡ₚ map_to_list r) →
  length (Registry.listInstances entries disk) = size (Registry.loadRegistry disk)
  ∧ NoDup (Registry.listInstances entries disk).*1
  ∧ (∀ dataDir entry,
       (dataDir, entry) ∈ Registry.listInstances entries disk
       ↔ Registry.findInstanceByDataDir dataDir disk = Registry.OwnEntry entry)
  ∧ (∀ dataDir entry,
       (dataDir, entry)
         ∈ Registry.listInstances entries (Registry.cleanupStaleInstances alive disk).1 →
       alive (Registry.pid entry) = true).
Proof.
  intros Hperm.
  assert (∀ d, Registry.listInstances entries d
               ≡ₚ map_to_list (Registry.loadRegistry d)) as Hlist.
  { intros d. unfold Registry.listInstances. rewrite <- Hperm.
    induction (entries (Registry.loadRegistry d)) as [|[k e] l IH]; simpl; [done|].
    by rewrite IH. }
  split; [|split; [|split]].
  - by rewrite Hlist, length_map_to_list.
  - rewrite Hlist. apply NoDup_fst_map_to_list.
  - intros dataDir entry. rewrite Hlist, elem_of_map_to_list.
    unfold Registry.findInstanceByDataDir. split.
    + apply getProperty_own.
    + apply getProperty_own_inv.
  - intros dataDir entry. rewrite Hlist, elem_of_map_to_list, cleanup_registry.
    intros H. by apply map_lookup_filter_Some in H as [_ H].
Qed.

Lemma listInstances_complete_witness :
  length (Registry.listInstances map_to_list (Registry.Json sample_registry)) = 2%nat.
Proof.
  destruct (listInstances_complete map_to_list (λ _, true)
              (Registry.Json sample_registry)) as (Hlen & _);
    [intros r; reflexivity|].
  rewrite Hlen. vm_compute. reflexivity.
Defined.

(** * Port allocator: every outcome *)

Section AllocationFacts.
Import Registry Ports.
Variable isPortFree : Z → bool.
Variable alive : Z → bool.

Lemma scan_finds (disk : File) (k : nat) (p q : Z) :
  p ≤ q < p + Z.of_nat k → passes isPortFree disk q = true →
  ∃ q0, scan isPortFree disk k p = Some q0.
Proof.
  intros Hq Hpass. destruct (scan isPortFree disk k p) as [q0|] eqn:Hs; [eauto|].
  pose proof (scan_none isPortFree disk k p Hs q Hq) as Hn.
  unfold passes in Hpass. congruence.
Qed.

Lemma allocatePort_fresh (disk : File) (dataDir : string) (pref : option Z) :
  (∀ e, loadRegistry disk !! dataDir = Some e → alive (pid e) = false) →
  allocatePort isPortFree alive disk dataDir pref
  = match pref with
    | Some pp =>
        if (pp <? 12000) || (pp >? 12999) then inl (OutOfRange pp)
        else if passes isPortFree disk pp then inr pp
        else match scan isPortFree disk rangeSize 12000 with
             | Some p => inr p
             | None => inl RangeExhausted
             end
    | None =>
        match scan isPortFree disk rangeSize 12000 with
        | Some p => inr p
        | None => inl RangeExhausted
        end
    end.
Proof.
  intros Hstale. unfold allocatePort.
  destruct (loadRegistry disk !! dataDir) as [e|] eqn:He; [|done].
  by rewrite (Hstale e eq_refl).
Qed.

Lemma allocatePort_fresh_port (disk : File) (dataDir : string) (pref : option Z)
    (q : Z) :
  (∀ e, loadRegistry disk !! dataDir = Some e → alive (pid e) = false) →
  allocatePort isPortFree alive disk dataDir pref = inr q →
  12000 ≤ q ≤ 12999 ∧ isPortFree q = true ∧ isPortInRegistry disk q = false.
Proof.
  intros Hstale. rewrite allocatePort_fresh by done.
  assert (∀ r : AllocError + Z,
    match scan isPortFree disk rangeSize 12000 with
    | Some p => inr p
    | None => inl RangeExhausted
    end = inr q →
    12000 ≤ q ≤ 12999 ∧ isPortFree q = true ∧ isPortInRegistry disk q = false)
    as Hscan.
  { intros _. destruct (scan isPortFree disk rangeSize 12000) as [p|] eqn:Hs; [|done].
    intros [= <-]. apply scan_first in Hs as (Hq & Hf & Hr & _).
    unfold rangeSize, PORT_RANGE_START, PORT_RANGE_END in Hq. repeat split; try done; lia. }
  destruct pref as [pp|]; [|by apply Hscan; exact (inl RangeExhausted)].
  destruct ((pp <? 12000) || (pp >? 12999)) eqn:Hrange; [done|].
  apply orb_false_iff in Hrange as [H1 H2].
  destruct (passes isPortFree disk pp) eqn:Hpp; [|by apply Hscan; exact (inl RangeExhausted)].
  intros [= <-]. unfold passes in Hpp. apply andb_true_iff in Hpp as [Hf Hr].
  apply negb_true_iff in Hr. repeat split; try done; lia.
Qed.

End AllocationFacts.

(** X6. Whatever the preferred port, a port that [allocatePort] returns is
    either the recorded port of the data directory's own entry, whose
    process runs (returned as recorded, with no range check and no probe),
    or a port inside [12000, 12999] that passed the probe and that no
    registry entry has. *)
Theorem allocatePort_outcome (isPortFree alive : Z → bool) (disk : Registry.File)
    (dataDir : string) (pref : option Z) (q : Z) :
  Ports.allocatePort isPortFree alive disk dataDir pref = inr q →
  (∃ own, Registry.findInstanceByDataDir dataDir disk = Registry.OwnEntry own
          ∧ alive (Registry.pid own) = true ∧ Registry.port own = q)
  ∨ (12000 ≤ q ≤ 12999
     ∧ isPortFree q = true
     ∧ ∀ dir entry,
         Registry.findInstanceByDataDir dir disk = Registry.OwnEntry entry →
         Registry.port entry ≠ q).
Proof.
  intros Hres. unfold Registry.findInstanceByDataDir.
  assert (12000 ≤ q ≤ 12999 ∧ isPortFree q = true
          ∧ Ports.isPortInRegistry disk q = false →
          12000 ≤ q ≤ 12999 ∧ isPortFree q = true
          ∧ ∀ dir entry,
              Registry.getProperty dir (Registry.loadRegistry disk)
              = Registry.OwnEntry entry →
              Registry.port entry ≠ q) as Hfree.
  { intros (Hq & Hf & Hr). split; [done|]. split; [done|].
    intros dir entry Hd Hp. apply getProperty_own_inv in Hd.
    assert (Ports.isPortInRegistry disk q = true); [|congruence].
    apply isPortInRegistry_spec. eauto. }
  destruct (Registry.loadRegistry disk !! dataDir) as [own|] eqn:Hown.
  - destruct (alive (Registry.pid own)) eqn:Halive.
    + left. exists own. split; [by apply getProperty_own|]. split; [done|].
      unfold Ports.allocatePort in Hres. rewrite Hown, Halive in Hres. congruence.
    + right. apply Hfree. eapply allocatePort_fresh_port; [|exact Hres].
      intros e He. congruence.
  - right. apply Hfree. eapply allocatePort_fresh_port; [|exact Hres].
    intros e He. congruence.
Qed.

Lemma allocatePort_outcome_witness :
  (∃ own, Registry.findInstanceByDataDir "/srv/old" (Registry.Json stale_registry)
          = Registry.OwnEntry own
          ∧ true = true ∧ Registry.port own = 12005)
  ∨ (12000 ≤ 12005 ≤ 12999
     ∧ true = true
     ∧ ∀ dir entry,
         Registry.findInstanceByDataDir dir (Registry.Json stale_registry)
         = Registry.OwnEntry entry →
         Registry.port entry ≠ 12005).
Proof.
  apply (allocatePort_outcome (λ _, true) (λ _, true) (Registry.Json stale_registry)
           "/srv/old" (Some 80) 12005).
  vm_compute. reflexivity.
Defined.

(** X7. Once a data directory other than '__proto__' is registered with a
    process that runs, [allocatePort] for it returns the registered port
    whatever the preferred port (even one outside the range) and whatever
    the probe would say. *)
Theorem allocatePort_reattach (isPortFree alive : Z → bool) (disk : Registry.File)
    (now dataDir : string) (p pd : Z) (pref : option Z) :
  dataDir ≠ "__proto__" →
  alive pd = true →
  Ports.allocatePort isPortFree alive
    (Registry.registerInstance now dataDir p pd disk) dataDir pref = inr p.
Proof.
  intros Hkey Halive. unfold Ports.allocatePort, Registry.registerInstance,
    Registry.saveRegistry. simpl. rewrite setProperty_plain by (by left).
  by rewrite lookup_insert_eq; simpl; rewrite Halive.
Qed.

Lemma allocatePort_reattach_witness :
  Ports.allocatePort (λ _, false) (λ _, true)
    (Registry.registerInstance "2025-01-01T00:00:00.000Z" "/srv/a" 12007 100
       Registry.Missing) "/srv/a" (Some 80) = inr 12007.
Proof.
  apply (allocatePort_reattach (λ _, false) (λ _, true) Registry.Missing);
    [discriminate | reflexivity].
Defined.

(** X8. With no preferred port, and no running process recorded for the
    data directory, [allocatePort] returns the lowest port of the range that
    passes the probe and that no entry has; it fails with the range-exhausted
    error exactly when no port of the range does; it never fails with the
    out-of-range error. *)
Theorem allocatePort_lowest (isPortFree alive : Z → bool) (disk : Registry.File)
    (dataDir : string) :
  (∀ e, Registry.loadRegistry disk !! dataDir = Some e →
        alive (Registry.pid e) = false) →
  let result := Ports.allocatePort isPortFree alive disk dataDir None in
  (∀ q, result = inr q →
     12000 ≤ q ≤ 12999
     ∧ isPortFree q && negb (Ports.isPortInRegistry disk q) = true
     ∧ ∀ q', 12000 ≤ q' < q →
             isPortFree q' && negb (Ports.isPortInRegistry disk q') = false)
  ∧ (result = inl Ports.RangeExhausted
     ↔ ∀ q', 12000 ≤ q' ≤ 12999 →
             isPortFree q' && negb (Ports.isPortInRegistry disk q') = false)
  ∧ (∀ pp, result ≠ inl (Ports.OutOfRange pp)).
Proof.
  intros Hstale result. subst result. rewrite allocatePort_fresh by done.
  destruct (Ports.scan isPortFree disk Ports.rangeSize 12000) as [p|] eqn:Hs.
  - apply scan_first in Hs as (Hq & Hf & Hr & Hmin).
    unfold Ports.rangeSize, Ports.PORT_RANGE_START, Ports.PORT_RANGE_END in Hq.
    split; [|split; [|done]].
    + intros q [= <-]. split; [lia|]. split; [by rewrite Hf, Hr|done].
    + split; [done|]. intros Hnone.
      specialize (Hnone p ltac:(lia)). by rewrite Hf, Hr in Hnone.
  - split; [done|]. split; [|done]. split; [|done].
    intros _ q' Hq'. apply (scan_none isPortFree disk _ _ Hs).
    unfold Ports.rangeSize, Ports.PORT_RANGE_START, Ports.PORT_RANGE_END. lia.
Qed.

Lemma allocatePort_lowest_witness :
  Ports.allocatePort (λ q, 12002 <=? q) (λ _, false)
    (Registry.Json stale_registry) "/srv/new" None = inr 12002
  ∧ 12000 ≤ 12002 ≤ 12999.
Proof.
  split; [vm_compute; reflexivity|].
  destruct (allocatePort_lowest (λ q, 12002 <=? q) (λ _, false)
              (Registry.Json stale_registry) "/srv/new") as (H & _);
    [intros e He; reflexivity|].
  apply (H 12002). vm_compute. reflexivity.
Defined.

(** X9. A port written to the registry by [registerInstance], for an owner
    other than '__proto__', is not handed out again: a later [allocatePort]
    for a data directory that has no running process recorded returns a
    different port. *)
Theorem allocatePort_avoids_registered (isPortFree alive : Z → bool)
    (disk : Registry.File) (now owner : string) (p pd : Z)
    (dataDir : string) (pref : option Z) (q : Z) :
  let disk' := Registry.registerInstance now owner p pd disk in
  owner ≠ "__proto__" →
  (∀ e, Registry.loadRegistry disk' !! dataDir = Some e →
        alive (Registry.pid e) = false) →
  Ports.allocatePort isPortFree alive disk' dataDir pref = inr q →
  q ≠ p.
Proof.
  intros disk' Hkey Hstale Hres.
  apply allocatePort_fresh_port in Hres as (_ & _ & Hr); [|done].
  intros ->.
  assert (Ports.isPortInRegistry disk' p = true); [|congruence].
  apply isPortInRegistry_spec. exists owner, (Registry.mkEntry p pd now "17.5").
  split; [|done]. subst disk'.
  unfold Registry.registerInstance, Registry.saveRegistry. simpl.
  rewrite setProperty_plain by (by left). apply lookup_insert_eq.
Qed.

Lemma allocatePort_avoids_registered_witness : 12001 ≠ 12000.
Proof.
  apply (allocatePort_avoids_registered (λ _, true) (λ _, false) Registry.Missing
           "2025-01-01T00:00:00.000Z" "/srv/a" 12000 100 "/srv/b" None 12001).
  - discriminate.
  - intros e He. reflexivity.
  - vm_compute. reflexivity.
Defined.

(** X10. For whatever order [Object.values] lists the registry in,
    [getPortRangeInfo] reports a total of 1000 ports, counts as used every
    entry of the registry, stale ones included, and reports as available
    1000 minus that count; a [cleanupStaleInstances] lowers the used count by
    the number it returns. *)
Theorem getPortRangeInfo_counts
    (entries : gmap string Registry.Entry → list (string * Registry.Entry))
    (alive : Z → bool) (disk : Registry.File) :
  (∀ r, entries r ≡ₚ map_to_list r) →
  let info := Ports.getPortRangeInfo entries disk in
  let swept := Registry.cleanupStaleInstances alive disk in
  Ports.total info = 1000
  ∧ Ports.used info = Z.of_nat (size (Registry.loadRegistry disk))
  ∧ Ports.available info = 1000 - Ports.used info
  ∧ (∀ q, q ∈ Ports.usedPorts info ↔ Ports.isPortInRegistry disk q = true)
  ∧ Ports.used (Ports.getPortRangeInfo entries swept.1)
    = Ports.used info - Z.of_nat swept.2.
Proof.
  intros Hperm info swept.
  assert (∀ d, Ports.used (Ports.getPortRangeInfo entries d)
               = Z.of_nat (size (Registry.loadRegistry d))) as Hused.
  { intros d. unfold Ports.getPortRangeInfo. simpl.
    by rewrite length_fmap, Hperm, length_map_to_list. }
  split; [done|]. split; [apply Hused|]. split; [done|]. split.
  - intros q. subst info. unfold Ports.getPortRangeInfo. simpl.
    rewrite list_elem_of_fmap, isPortInRegistry_spec. split.
    + intros ([d e] & -> & Hin). exists d, e. split; [|done].
      apply elem_of_map_to_list. by rewrite <- Hperm.
    + intros (d & e & Hd & <-). exists (d, e). split; [done|].
      rewrite Hperm. by apply elem_of_map_to_list.
  - subst info swept. rewrite !Hused, cleanup_registry, cleanup_count.
    pose proof (size_live_dead alive (Registry.loadRegistry disk)). lia.
Qed.

Lemma getPortRangeInfo_counts_witness :
  Ports.used (Ports.getPortRangeInfo map_to_list (Registry.Json sample_registry)) = 2
  ∧ Ports.available (Ports.getPortRangeInfo map_to_list (Registry.Json sample_registry))
    = 998.
Proof.
  destruct (getPortRangeInfo_counts map_to_list (λ _, true)
              (Registry.Json sample_registry)) as (_ & Hu & Ha & _);
    [intros r; reflexivity|].
  rewrite Ha, Hu. split; vm_compute; reflexivity.
Defined.

(** * Instance teardown and storage *)

(** X11. [close()] drops the engine handle and emits 'closed' whatever the
    lock state: [locked], the active socket and the wait queue are left as
    they were. An [initialize()] after it boots again: a new engine is
    constructed, and it is the one returned. *)
Theorem close_then_initialize (m : Instance.ManagedInstance) (host : Instance.Host) :
  Instance.memoryMode m = true ∨ is_Some (Instance.dataDir m) →
  let closed := Instance.close m host in
  let again := Instance.initialize Instance.Resolves closed.1 closed.2 in
  Instance.db closed.1 = None
  ∧ Instance.locked closed.1 = Instance.locked m
  ∧ Instance.activeSocket closed.1 = Instance.activeSocket m
  ∧ Instance.queue closed.1 = Instance.queue m
  ∧ Instance.emitted closed.2 = Instance.emitted host ++ [Instance.Closed (Instance.dbName m)]
  ∧ Instance.booted closed.2 = Instance.booted host
  ∧ ∃ h, again.2 = inr (Some h)
       ∧ Instance.db again.1.1 = Some h
       ∧ Instance.engineId h = Instance.booted host
       ∧ Instance.booted again.1.2 = S (Instance.booted host).
Proof.
  intros Hmode closed again. subst again closed.
  unfold Instance.close, Instance.initialize, Instance.initialize_enter. simpl.
  repeat (split; [done|]).
  destruct (Instance.memoryMode m) eqn:Hmem; simpl.
  - eexists. repeat split; done.
  - destruct Hmode as [|[d Hd]]; [done|]. rewrite Hd. simpl.
    eexists. repeat split; try done.
    + unfold Instance.ensureDir. by case_bool_decide.
    + unfold Instance.ensureDir. by case_bool_decide.
Qed.

Lemma close_then_initialize_witness :
  let m := Instance.mkInstance "db" None true (Some (Instance.mkPGlite 0 None))
             true (Some 7%nat) [] in
  let closed := Instance.close m (Instance.mkHost ∅ 1 [0%nat] []) in
  Instance.db closed.1 = None ∧ Instance.locked closed.1 = true.
Proof.
  intros m closed.
  destruct (close_then_initialize m (Instance.mkHost ∅ 1 [0%nat] []))
    as (Hdb & Hl & _); [left; reflexivity|].
  split; [exact Hdb | exact Hl].
Defined.




(** * Pool: lookups, errors, teardown *)

Section PoolOps.
Import Pool.
Variable path_join : string → string → string.

Lemma set_instances_id (pool : InstancePool) :
  set_instances (instances pool) pool = pool.
Proof. by destruct pool. Qed.

Lemma getOrCreate_present (sig : Instance.ReadySignal) (name : string)
    (pool : InstancePool) (host : Instance.Host) (i : Instance.ManagedInstance)
    (h : Instance.PGlite) :
  instances pool !! name = Some i → Instance.db i = Some h →
  getOrCreate path_join sig name pool host = (pool, host, inr i).
Proof.
  intros Hi Hdb. unfold getOrCreate, resolve. rewrite Hi.
  rewrite (initialize_set sig i host h Hdb).
  by rewrite insert_id, set_instances_id.
Qed.

Lemma getOrCreate_success (sig : Instance.ReadySignal) (name : string)
    (pool pool1 : InstancePool) (host host1 : Instance.Host)
    (i : Instance.ManagedInstance) :
  getOrCreate path_join sig name pool host = (pool1, host1, inr i) →
  instances pool1 !! name = Some i ∧ is_Some (Instance.db i).
Proof.
  unfold getOrCreate.
  destruct (resolve path_join name pool) as [e|[pool0 i0]] eqn:Hr; [done|].
  unfold Instance.initialize.
  destruct (Instance.initialize_enter i0 host) as [[m' host'] e] eqn:He.
  destruct e as [h|h|err].
  - intros [= <- <- <-]. simpl. rewrite lookup_insert_eq. split; [done|].
    apply initialize_enter_returned in He as (-> & _ & ->). by eexists.
  - destruct sig; simpl; [|done]. intros [= <- <- <-]. simpl.
    rewrite lookup_insert_eq. split; [done|].
    apply initialize_enter_awaiting in He as (_ & -> & _). by eexists.
  - done.
Qed.

Lemma closeAll_host (l : list (string * Instance.ManagedInstance)) (host : Instance.Host) :
  let host' := foldl (λ h (kv : string * Instance.ManagedInstance),
                        (Instance.close kv.2 h).2) host l in
  Instance.dirs host' = Instance.dirs host
  ∧ Instance.booted host' = Instance.booted host
  ∧ Instance.ready host' = Instance.ready host
  ∧ Instance.emitted host'
    = Instance.emitted host ++ ((λ kv, Instance.Closed (Instance.dbName kv.2)) <$> l).
Proof.
  revert host. induction l as [|kv l IH]; intros host; simpl.
  - by rewrite app_nil_r.
  - destruct (IH (Instance.close kv.2 host).2) as (Hd & Hb & Hr & He).
    simpl in *. rewrite Hd, Hb, Hr, He. simpl. by rewrite <- (assoc_L (++)).
Qed.

End PoolOps.

(** X13. After a [getOrCreate] that returned an instance, [get] finds that
    instance under the name, and a repeated [getOrCreate] returns it again
    with pool and host unchanged: no second engine, no event, no directory. *)
Theorem getOrCreate_idempotent (path_join : string → string → string)
    (sig1 : Instance.ReadySignal) (name : string) (pool pool1 : Pool.InstancePool)
    (host host1 : Instance.Host) (i : Instance.ManagedInstance) :
  Pool.getOrCreate path_join sig1 name pool host = (pool1, host1, inr i) →
  Pool.get name pool1 = Some i
  ∧ ∀ sig2, Pool.getOrCreate path_join sig2 name pool1 host1 = (pool1, host1, inr i).
Proof.
  intros H. apply getOrCreate_success in H as (Hi & [h Hh]).
  split; [done|]. intros sig2. by eapply getOrCreate_present.
Qed.

Lemma getOrCreate_idempotent_witness :
  let first := Pool.getOrCreate (λ a b, a +:+ "/" +:+ b) Instance.Resolves "a"
                 (Pool.new Pool.Options.empty) (Instance.mkHost ∅ 0 [] []) in
  Pool.get "a" first.1.1
  = Some (Instance.mkInstance "a" (Some "./data/a") false
            (Some (Instance.mkPGlite 0 (Some "./data/a"))) false None []).
Proof.
  intros first.
  destruct (getOrCreate_idempotent (λ a b, a +:+ "/" +:+ b) Instance.Resolves "a"
              (Pool.new Pool.Options.empty) first.1.1 (Instance.mkHost ∅ 0 [] [])
              first.1.2
              (Instance.mkInstance "a" (Some "./data/a") false
                 (Some (Instance.mkPGlite 0 (Some "./data/a"))) false None []))
    as [Hget _]; [vm_compute; reflexivity|].
  exact Hget.
Defined.

(** X14. For a name the pool does not hold, with auto-provision off,
    [getOrCreate] fails and leaves pool and host as they were; the capacity
    check comes first, so on a full pool the error is the capacity one and
    otherwise it is the not-provisioned one. *)
Theorem getOrCreate_not_provisioned (path_join : string → string → string)
    (sig : Instance.ReadySignal) (name : string) (pool : Pool.InstancePool)
    (host : Instance.Host) :
  Pool.get name pool = None →
  Pool.autoProvision pool = false →
  Pool.getOrCreate path_join sig name pool host
  = (pool, host,
     inl (if Js.size_ge (size (Pool.instances pool)) (Pool.maxInstances pool)
          then Pool.CapacityExceeded (Pool.maxInstances pool) name
          else Pool.NotProvisioned name)).
Proof.
  unfold Pool.get, Pool.getOrCreate, Pool.resolve. intros -> ->.
  by destruct (Js.size_ge (size (Pool.instances pool)) (Pool.maxInstances pool)).
Qed.

Lemma getOrCreate_not_provisioned_witness :
  Pool.getOrCreate (λ a b, a +:+ "/" +:+ b) Instance.Resolves "a"
    (Pool.new (Pool.Options.mk None None None (Some false)))
    (Instance.mkHost ∅ 0 [] [])
  = (Pool.new (Pool.Options.mk None None None (Some false)),
     Instance.mkHost ∅ 0 [] [], inl (Pool.NotProvisioned "a")).
Proof.
  apply (getOrCreate_not_provisioned (λ a b, a +:+ "/" +:+ b) Instance.Resolves "a"
           (Pool.new (Pool.Options.mk None None None (Some false)))
           (Instance.mkHost ∅ 0 [] [])); reflexivity.
Defined.

Lemma getOrCreate_fresh_rejects (path_join : string → string → string)
    (name : string) (pool : Pool.InstancePool) (host : Instance.Host) :
  Pool.instances pool !! name = None →
  Js.size_ge (size (Pool.instances pool)) (Pool.maxInstances pool) = false →
  Pool.autoProvision pool = true →
  ∃ i h host1,
    Pool.getOrCreate path_join Instance.Rejects name pool host
    = (Pool.set_instances (<[name := i]> (Pool.instances pool)) pool, host1,
       inl (Pool.InitFailed (Instance.BootFailed h)))
    ∧ Instance.db i = Some h
    ∧ Instance.booted host1 = S (Instance.booted host).
Proof.
  intros Hn Hroom Hauto. unfold Pool.getOrCreate, Pool.resolve.
  rewrite Hn, Hauto, Hroom. simpl.
  unfold Instance.initialize, Instance.initialize_enter. simpl.
  destruct (Pool.memoryMode pool); simpl; rewrite insert_insert_eq.
  - eexists _, _, _. split; [done|]. by split.
  - eexists _, _, _. split; [done|]. split; [done|]. simpl.
    unfold Instance.ensureDir. by case_bool_decide.
Qed.

(** X15. When [getOrCreate] creates an instance and its boot fails, the
    error reaches the caller but the instance stays in the pool, counted
    against the capacity, with the engine object as its handle; the next
    [getOrCreate] for the name returns that instance as a success and
    starts no boot. *)
Theorem getOrCreate_failed_boot_stays (path_join : string → string → string)
    (name : string) (pool : Pool.InstancePool) (host : Instance.Host) :
  Pool.get name pool = None →
  Js.size_ge (size (Pool.instances pool)) (Pool.maxInstances pool) = false →
  Pool.autoProvision pool = true →
  let failed := Pool.getOrCreate path_join Instance.Rejects name pool host in
  ∃ i h,
    failed.2 = inl (Pool.InitFailed (Instance.BootFailed h))
    ∧ Pool.get name failed.1.1 = Some i
    ∧ Instance.db i = Some h
    ∧ size (Pool.instances failed.1.1) = S (size (Pool.instances pool))
    ∧ Instance.booted failed.1.2 = S (Instance.booted host)
    ∧ ∀ sig, Pool.getOrCreate path_join sig name failed.1.1 failed.1.2
             = (failed.1.1, failed.1.2, inr i).
Proof.
  intros Hn Hroom Hauto failed. unfold Pool.get in *.
  destruct (getOrCreate_fresh_rejects path_join name pool host Hn Hroom Hauto)
    as (i & h & host1 & Hf & Hdb & Hb).
  subst failed. rewrite Hf. simpl. exists i, h.
  split; [done|]. rewrite lookup_insert_eq. split; [done|]. split; [done|].
  split; [by rewrite map_size_insert_None|]. split; [done|].
  intros sig. eapply getOrCreate_present; [apply lookup_insert_eq|done].
Qed.

Lemma getOrCreate_failed_boot_stays_witness :
  let failed := Pool.getOrCreate (λ a b, a +:+ "/" +:+ b) Instance.Rejects "a"
                  (Pool.new (Pool.Options.mk None (Some true) (Some (Js.Finite 1)) None))
                  (Instance.mkHost ∅ 0 [] []) in
  ∃ i h,
    failed.2 = inl (Pool.InitFailed (Instance.BootFailed h))
    ∧ Pool.get "a" failed.1.1 = Some i
    ∧ Instance.db i = Some h
    ∧ size (Pool.instances failed.1.1) = 1%nat
    ∧ Instance.booted failed.1.2 = 1%nat
    ∧ ∀ sig, Pool.getOrCreate (λ a b, a +:+ "/" +:+ b) sig "a" failed.1.1 failed.1.2
             = (failed.1.1, failed.1.2, inr i).
Proof.
  apply (getOrCreate_failed_boot_stays (λ a b, a +:+ "/" +:+ b) "a"
           (Pool.new (Pool.Options.mk None (Some true) (Some (Js.Finite 1)) None))
           (Instance.mkHost ∅ 0 [] [])); [reflexivity | | reflexivity].
  vm_compute. reflexivity.
Defined.

(** X16. [closeInstance] of a name the pool does not hold changes nothing
    and emits nothing. Of a name it holds, locked or not, it removes that
    instance and no other, the pool is one smaller, and one 'closed' event
    is emitted, carrying the instance's name. *)
Theorem closeInstance_removes (name : string) (pool : Pool.InstancePool)
    (host : Instance.Host) :
  let closed := Pool.closeInstance name pool host in
  (Pool.get name pool = None → closed = (pool, host))
  ∧ (∀ i, Pool.get name pool = Some i →
       Pool.get name closed.1 = None
       ∧ (∀ other, other ≠ name → Pool.get other closed.1 = Pool.get other pool)
       ∧ S (size (Pool.instances closed.1)) = size (Pool.instances pool)
       ∧ Pool.maxInstances closed.1 = Pool.maxInstances pool
       ∧ Instance.emitted closed.2
         = Instance.emitted host ++ [Instance.Closed (Instance.dbName i)]
       ∧ Instance.booted closed.2 = Instance.booted host).
Proof.
  intros closed. subst closed. unfold Pool.get, Pool.closeInstance. split.
  - by intros ->.
  - intros i Hi. rewrite Hi. simpl. split; [apply lookup_delete_eq|].
    split; [intros other Hne; by apply lookup_delete_ne|].
    split; [|done].
    pose proof (map_size_delete name (Pool.instances pool)) as Hd.
    rewrite Hi in Hd. simpl in Hd.
    assert (size (Pool.instances pool) ≠ O); [|lia].
    intros Hz. apply map_size_empty_iff in Hz. by rewrite Hz, lookup_empty in Hi.
Qed.

(** X17. Whatever the order in which the instances' [close()] calls
    finish, [closeAll] leaves the pool empty with its configuration
    unchanged, emits exactly one 'closed' event for each instance it held,
    carrying that instance's name, and nothing else, and constructs no
    engine; afterwards [getOrCreate] gives the capacity error only on a pool
    whose [maxInstances] is zero or negative. *)
Theorem closeAll_empties (path_join : string → string → string)
    (closing : gmap string Instance.ManagedInstance
               → list (string * Instance.ManagedInstance))
    (pool : Pool.InstancePool) (host : Instance.Host) :
  (∀ m, closing m ≡ₚ map_to_list m) →
  let closed := Pool.closeAll closing pool host in
  Pool.instances closed.1 = ∅
  ∧ Pool.maxInstances closed.1 = Pool.maxInstances pool
  ∧ Pool.autoProvision closed.1 = Pool.autoProvision pool
  ∧ Pool.baseDir closed.1 = Pool.baseDir pool
  ∧ Pool.memoryMode closed.1 = Pool.memoryMode pool
  ∧ (∃ order, order ≡ₚ map_to_list (Pool.instances pool)
       ∧ Instance.emitted closed.2
         = Instance.emitted host
           ++ ((λ kv, Instance.Closed (Instance.dbName kv.2)) <$> order))
  ∧ Instance.booted closed.2 = Instance.booted host
  ∧ Instance.dirs closed.2 = Instance.dirs host
  ∧ (∀ sig name max e,
       (Pool.getOrCreate path_join sig name closed.1 closed.2).2
       = inl (Pool.CapacityExceeded max e) →
       Js.size_ge O (Pool.maxInstances pool) = true).
Proof.
  intros Hperm closed. subst closed. unfold Pool.closeAll. simpl.
  destruct (closeAll_host (closing (Pool.instances pool)) host)
    as (Hd & Hb & Hr & He). simpl in *.
  repeat (split; [done|]). split; [|split; [done|split; [done|]]].
  - exists (closing (Pool.instances pool)). by split.
  - intros sig name max e. unfold Pool.getOrCreate, Pool.resolve. simpl.
    rewrite lookup_empty, map_size_empty.
    destruct (Js.size_ge O (Pool.maxInstances pool)); [done|].
    destruct (Pool.autoProvision pool); simpl; [|done].
    by destruct (Instance.initialize _ _ _) as [[? ?] [?|?]].
Qed.

Lemma closeAll_empties_witness :
  let join := λ a b : string, a +:+ "/" +:+ b in
  let pool :=
    (Pool.execAll join map_to_list
       [Pool.GetOrCreate "a" Instance.Resolves; Pool.GetOrCreate "b" Instance.Resolves]
       (Pool.new Pool.Options.empty, Instance.mkHost ∅ 0 [] [])).1 in
  Pool.instances (Pool.closeAll map_to_list pool (Instance.mkHost ∅ 0 [] [])).1 = ∅
  ∧ size (Pool.instances pool) = 2%nat.
Proof.
  intros join pool.
  destruct (closeAll_empties join map_to_list pool (Instance.mkHost ∅ 0 [] []))
    as (Hempty & _); [intros m; reflexivity|].
  split; [exact Hempty | vm_compute; reflexivity].
Defined.

(** * Lock arbitration: what a run never shows *)

Section TraceFacts.
Import Instance.

Lemma call_frame (f : Fn) (w : Loop) :
  listeners (call f w) = listeners w
  ∧ ∃ extra, trace (call f w) = trace w ++ extra
             ∧ Forall (λ o, passive o = true) extra.
Proof.
  destruct (call_view f w) as (_ & _ & Ht). split.
  - destruct f as [k|k|k]; simpl; unfold fulfil, rejectBusy; simpl;
      by case_bool_decide.
  - destruct Ht as [->|(k & s & ->)].
    + exists []. by rewrite app_nil_r.
    + exists [Busy k s]. split; [done|]. by repeat constructor.
Qed.

Lemma unlock_frame (w : Loop) :
  listeners (unlock w) = listeners w
  ∧ ∃ extra, trace (unlock w) = trace w ++ extra
             ∧ Forall (λ o, passive o = true) extra.
Proof.
  unfold unlock. simpl. destruct (queue (inst w)) as [|next rest].
  - split; [done|]. exists [Released]. split; [done|]. by repeat constructor.
  - match goal with |- context [call ?f ?w0] =>
      destruct (call_frame f w0) as (Hl & extra & Ht & Hp) end.
    rewrite Hl, Ht. simpl. split; [done|].
    exists (Released :: extra). rewrite <- (assoc_L (++)). split; [done|].
    by constructor.
Qed.

Lemma unlocks_frame (n : nat) (w : Loop) :
  listeners (Nat.iter n unlock w) = listeners w
  ∧ ∃ extra, trace (Nat.iter n unlock w) = trace w ++ extra
             ∧ Forall (λ o, passive o = true) extra.
Proof.
  induction n as [|n (Hl & extra & Ht & Hp)]; simpl.
  - split; [done|]. exists []. by rewrite app_nil_r.
  - destruct (unlock_frame (Nat.iter n unlock w)) as (Hl' & extra' & Ht' & Hp').
    rewrite Hl', Hl, Ht', Ht. split; [done|].
    exists (extra ++ extra'). rewrite (assoc_L (++)). split; [done|].
    by apply Forall_app.
Qed.

Lemma onTimeout_frame (k : nat) (w : Loop) :
  listeners (onTimeout k w) = listeners w
  ∧ ∃ extra, trace (onTimeout k w) = trace w ++ extra
             ∧ Forall (λ o, passive o = true) extra.
Proof.
  destruct (onTimeout_view k w) as (_ & _ & Ht). split.
  - unfold onTimeout, rejectBusy; simpl; by case_bool_decide.
  - destruct Ht as [->|(k' & s & ->)].
    + exists []. by rewrite app_nil_r.
    + exists [Busy k' s]. split; [done|]. by repeat constructor.
Qed.

(** What one step adds to the trace. *)
Lemma step_trace (ev : Event) (w : Loop) :
  ∃ extra, trace (step ev w) = trace w ++ extra
           ∧ Forall (λ o, direct_refusal o = false) extra.
Proof.
  assert (∀ l, Forall (λ o, passive o = true) l →
               Forall (λ o, direct_refusal o = false) l) as Hpass.
  { intros l Hl. eapply Forall_impl; [exact Hl|]. by intros []. }
  destruct ev as [s|s e|k| |]; simpl.
  - destruct (locked (inst w)) eqn:Hl.
    + unfold waitForFree. rewrite Hl. simpl. eexists. split; [done|].
      by repeat constructor.
    + unfold lock. rewrite Hl. simpl. eexists. split; [done|].
      by repeat constructor.
  - match goal with |- context [Nat.iter ?n unlock ?w0] =>
      destruct (unlocks_frame n w0) as (_ & extra & Ht & Hp) end.
    exists extra. split; [done|]. by apply Hpass.
  - case_bool_decide.
    + destruct (onTimeout_frame k (clearTimeout k w)) as (_ & extra & Ht & Hp).
      exists extra. split; [done|]. by apply Hpass.
    + exists []. by rewrite app_nil_r.
  - destruct (microtasks w) as [|k rest].
    { exists []. by rewrite app_nil_r. }
    destruct (frame_of k (frames w)) as [s|].
    + unfold lock. simpl. destruct (locked (inst w)); simpl;
        eexists; (split; [done|]); by repeat constructor.
    + exists []. by rewrite app_nil_r.
  - destruct (unlock_frame w) as (_ & extra & Ht & Hp).
    exists extra. split; [done|]. by apply Hpass.
Qed.

Lemma run_trace (evs : list Event) (w : Loop) :
  ∃ extra, trace (run evs w) = trace w ++ extra
           ∧ Forall (λ o, direct_refusal o = false) extra.
Proof.
  revert w. induction evs as [|ev evs IH]; intros w; simpl.
  - exists []. by rewrite app_nil_r.
  - destruct (step_trace ev w) as (e1 & H1 & Hp1).
    destruct (IH (step ev w)) as (e2 & H2 & Hp2).
    exists (e1 ++ e2). rewrite H2, H1, (assoc_L (++)). split; [done|].
    by apply Forall_app.
Qed.

Lemma step_listeners (ev : Event) (w : Loop) : listener_inv w → listener_inv (step ev w).
Proof.
  intros H.
  assert (∀ w', (∀ l, l ∈ listeners w' → l ∈ listeners w) →
                (∃ extra, trace w' = trace w ++ extra) → listener_inv w') as Hmono.
  { intros w' Hl (extra & Ht) s e Hin. destruct (H s e (Hl _ Hin)) as [via Hv].
    exists via. rewrite Ht. apply elem_of_app. by left. }
  assert (∀ s via w0, listener_inv w0 → listener_inv (lock s via w0)) as Hlock.
  { intros s via w0 H0 s' e'. unfold lock. destruct (locked (inst w0)); simpl.
    - intros Hin. destruct (H0 s' e' Hin) as [v Hv]. exists v.
      apply elem_of_app. by left.
    - rewrite elem_of_app. intros [Hin|Hin].
      + destruct (H0 s' e' Hin) as [v Hv]. exists v. apply elem_of_app. by left.
      + exists via. apply elem_of_app. right.
        apply elem_of_cons in Hin as [Hin|Hin].
        * inversion Hin. by left.
        * apply list_elem_of_singleton in Hin. inversion Hin. by left. }
  destruct ev as [s|s e|k| |]; simpl.
  - destruct (locked (inst w)) eqn:Hl; [|by apply Hlock].
    apply Hmono.
    + unfold waitForFree. by rewrite Hl.
    + unfold waitForFree. rewrite Hl. simpl. by eexists.
  - match goal with |- context [Nat.iter ?n unlock ?w0] =>
      destruct (unlocks_frame n w0) as (Hl & extra & Ht & _) end.
    apply Hmono.
    + intros l. rewrite Hl. simpl. intros Hin.
      by apply list_elem_of_filter in Hin as [_ Hin].
    + rewrite Ht. simpl. by eexists.
  - case_bool_decide; [|done].
    destruct (onTimeout_frame k (clearTimeout k w)) as (Hl & extra & Ht & _).
    apply Hmono; [by rewrite Hl|]. rewrite Ht. by eexists.
  - destruct (microtasks w) as [|k rest]; [done|].
    destruct (frame_of k (frames w)) as [s|].
    + apply Hlock. intros s' e' Hin. simpl in *. by apply (H s' e').
    + intros s' e' Hin. simpl in *. by apply (H s' e').
  - destruct (unlock_frame w) as (Hl & extra & Ht & _).
    apply Hmono; [by rewrite Hl|]. rewrite Ht. by eexists.
Qed.

Lemma run_listeners (evs : list Event) (w : Loop) :
  listener_inv w → listener_inv (run evs w).
Proof.
  revert w. induction evs as [|ev evs IH]; intros w H; simpl; [done|].
  apply IH, step_listeners, H.
Qed.

End TraceFacts.

(** X18. A caller that found the instance free is never refused: in every
    run [lock] throws 'already locked' only for callers that had waited in
    the queue and were promoted. *)
Theorem refused_only_after_waiting (name : string) (dir : option string) (mem : bool)
    (evs : list Instance.Event) (socket : Instance.Socket) :
  Instance.Refused socket None
    ∉ Instance.trace (Instance.run evs (Instance.start (Instance.new name dir mem))).
Proof.
  destruct (run_trace evs (Instance.start (Instance.new name dir mem)))
    as (extra & -> & Hp). simpl.
  intros Hin. rewrite Forall_forall in Hp. by specialize (Hp _ Hin).
Qed.

(** X19. The 'close' or 'error' of a socket that was never granted the
    lock releases nothing: the step leaves the instance, the queue and the
    trace exactly as they were. *)
Theorem foreign_socket_event_ignored (name : string) (dir : option string) (mem : bool)
    (evs : list Instance.Event) (socket : Instance.Socket) (e : Instance.SocketEvent) :
  let w := Instance.run evs (Instance.start (Instance.new name dir mem)) in
  (∀ via, Instance.Granted socket via ∉ Instance.trace w) →
  Instance.step (Instance.Emit socket e) w = w.
Proof.
  intros w Hnever.
  assert (Instance.listener_inv w) as Hinv.
  { apply run_listeners. intros s e' Hin. by apply elem_of_nil in Hin. }
  assert (Forall (λ l, l ≠ (socket, e)) (Instance.listeners w)) as Hall.
  { apply Forall_forall. intros l Hin ->. destruct (Hinv _ _ Hin) as [via Hv].
    by apply (Hnever via). }
  simpl.
  assert (filter (λ l, l = (socket, e)) (Instance.listeners w) = []) as ->.
  { clear Hinv Hnever. induction Hall as [|l ls Hl _ IH]; [done|].
    by rewrite filter_cons_False. }
  assert (filter (λ l, l ≠ (socket, e)) (Instance.listeners w) = Instance.listeners w)
    as ->.
  { clear Hinv Hnever. induction Hall as [|l ls Hl _ IH]; [done|].
    rewrite filter_cons_True by done. by rewrite IH. }
  simpl. by destruct w.
Qed.

Lemma foreign_socket_event_ignored_witness :
  let w := Instance.run [Instance.Acquire 1; Instance.Acquire 2]
             (Instance.start (Instance.new "db" None true)) in
  Instance.step (Instance.Emit 2 Instance.Close) w = w.
Proof.
  apply (foreign_socket_event_ignored "db" None true
           [Instance.Acquire 1; Instance.Acquire 2] 2 Instance.Close).
  intros via. vm_compute. intros Hin.
  repeat (apply elem_of_cons in Hin as [Hin|Hin]; [discriminate Hin|]).
  by apply elem_of_nil in Hin.
Defined.

(** * Lock arbitration: how a waiting call ends *)

Section SettleFacts.
Import Instance.

Lemma settle_same (w w' : Loop) :
  settled w' = settled w → microtasks w' = microtasks w →
  (trace w' = trace w
   ∨ ∃ o, trace w' = trace w ++ [o] ∧ resumed o = None ∧ busy_id o = None) →
  settle_inv w → settle_inv w'.
Proof.
  intros Hs Hm Ht. unfold settle_inv. rewrite Hs, Hm.
  destruct Ht as [->|(o & -> & Hr & Hb)]; [done|].
  rewrite !omap_app. simpl. rewrite Hr, Hb. simpl. by rewrite !app_nil_r.
Qed.

Lemma settle_fulfil (k : nat) (w : Loop) : settle_inv w → settle_inv (fulfil k w).
Proof.
  intros (Ha & Hb & Hc & Hd). unfold fulfil. case_bool_decide; [done|].
  unfold settle_inv. simpl. split; [|split; [|split; [|done]]].
  - intros k'. rewrite elem_of_app, list_elem_of_singleton, elem_of_cons.
    intros [Hin| ->]; [right; by apply Ha|by left].
  - intros k' Hin. right. by apply Hb.
  - intros k' Hin. destruct (Hc k' Hin) as (Hs & Hm & Hr).
    split; [by right|]. split; [|done].
    rewrite elem_of_app, list_elem_of_singleton. intros [?| ->]; done.
Qed.

Lemma settle_reject (k : nat) (w : Loop) : settle_inv w → settle_inv (rejectBusy k w).
Proof.
  intros (Ha & Hb & Hc & Hd). unfold rejectBusy. case_bool_decide as Hk; [done|].
  unfold settle_inv. simpl. destruct (frame_of k (frames w)) as [s|].
  - rewrite !omap_app. simpl. rewrite app_nil_r.
    split; [|split; [|split]].
    + intros k' Hin. right. by apply Ha.
    + intros k' Hin. right. by apply Hb.
    + intros k'. rewrite elem_of_app, list_elem_of_singleton.
      intros [Hin| ->].
      * destruct (Hc k' Hin) as (Hs & Hm & Hr). split; [by right|done].
      * split; [by left|]. split; intros Hin; apply Hk; auto.
    + apply NoDup_app. split; [done|]. split; [|apply NoDup_singleton].
      intros k' Hin. rewrite list_elem_of_singleton. intros ->.
      apply Hk. by apply Hc.
  - split; [|split; [|split; [|done]]].
    + intros k' Hin. right. by apply Ha.
    + intros k' Hin. right. by apply Hb.
    + intros k' Hin. destruct (Hc k' Hin) as (Hs & Hm & Hr). split; [by right|done].
Qed.

Lemma settle_call (f : Fn) (w : Loop) : settle_inv w → settle_inv (call f w).
Proof.
  intros H. destruct f as [k|k|k]; simpl.
  - by apply settle_fulfil.
  - by apply settle_reject.
  - apply settle_fulfil. eapply settle_same; [..|exact H]; auto.
Qed.

Lemma settle_unlock (w : Loop) : settle_inv w → settle_inv (unlock w).
Proof.
  intros H. unfold unlock. simpl.
  assert (settle_inv (log Released (set_inst (set_lock false None (inst w)) w))) as H1.
  { eapply settle_same; [..|exact H]; try done. right. by exists Released. }
  destruct (queue (inst w)) as [|next rest]; [done|].
  apply settle_call. eapply settle_same; [..|exact H1]; auto.
Qed.

Lemma settle_unlocks (n : nat) (w : Loop) :
  settle_inv w → settle_inv (Nat.iter n unlock w).
Proof. induction n; simpl; auto using settle_unlock. Qed.

Lemma settle_lock_direct (s : Socket) (w : Loop) :
  settle_inv w → settle_inv (lock s None w).
Proof.
  intros H. unfold lock. destruct (locked (inst w)).
  - eapply settle_same; [..|exact H]; try done. right. by eexists.
  - eapply settle_same; [..|exact H]; try done. right. by eexists.
Qed.

Lemma settle_step (ev : Event) (w : Loop) : settle_inv w → settle_inv (step ev w).
Proof.
  intros H. destruct ev as [s|s e|k| |]; simpl.
  - destruct (locked (inst w)) eqn:Hl; [|by apply settle_lock_direct].
    unfold waitForFree. rewrite Hl. simpl.
    eapply settle_same; [..|exact H]; try done. right. by eexists.
  - apply settle_unlocks. eapply settle_same; [..|exact H]; auto.
  - case_bool_decide; [|done]. unfold onTimeout.
    apply settle_reject. eapply settle_same; [..|exact H]; auto.
  - destruct (microtasks w) as [|k rest] eqn:Hm; [done|].
    destruct H as (Ha & Hb & Hc & Hd). rewrite Hm in Ha, Hc.
    assert (∀ k', k' ∈ rest → k' ∈ settled w) as Ha'.
    { intros k' Hin. apply Ha. by right. }
    destruct (frame_of k (frames w)) as [s|].
    + assert (∀ o, resumed o = Some k → busy_id o = None →
        settle_inv (mkLoop (inst (lock s (Some k) w)) (listeners (lock s (Some k) w))
                      (promises w) (settled w) (timers w) (drop_frame k (frames w))
                      rest (trace w ++ [o]))) as Hgo.
      { intros o Hr Hbusy. unfold settle_inv. simpl.
        rewrite !omap_app. simpl. rewrite Hr, Hbusy. simpl. rewrite app_nil_r.
        split; [done|]. split; [|split; [|done]].
        - intros k'. rewrite elem_of_app, list_elem_of_singleton.
          intros [Hin| ->]; [by apply Hb|]. apply Ha. by left.
        - intros k' Hin. destruct (Hc k' Hin) as (Hs & Hn & Hr').
          split; [done|]. split.
          + intros Hin'. apply Hn. by right.
          + rewrite elem_of_app, list_elem_of_singleton. intros [?| ->]; [done|].
            apply Hn. by left. }
      unfold lock. simpl. destruct (locked (inst w)) eqn:Hl.
      * specialize (Hgo (Refused s (Some k)) eq_refl eq_refl).
        unfold lock in Hgo. by rewrite Hl in Hgo.
      * specialize (Hgo (Granted s (Some k)) eq_refl eq_refl).
        unfold lock in Hgo. by rewrite Hl in Hgo.
    + unfold settle_inv. simpl. split; [done|]. split; [done|]. split; [|done].
      intros k' Hin. destruct (Hc k' Hin) as (Hs & Hn & Hr').
      split; [done|]. split; [|done]. intros Hin'. apply Hn. by right.
  - by apply settle_unlock.
Qed.

Lemma settle_run (evs : list Event) (w : Loop) : settle_inv w → settle_inv (run evs w).
Proof.
  revert w. induction evs as [|ev evs IH]; intros w H; simpl; [done|].
  apply IH, settle_step, H.
Qed.

Lemma StronglySorted_NoDup (l : list nat) : StronglySorted lt l → NoDup l.
Proof.
  induction 1 as [|x l _ IH Hx]; constructor; [|done].
  intros Hin. rewrite Forall_forall in Hx. specialize (Hx x Hin). lia.
Qed.

End SettleFacts.

(** X20. In every run a waiting [acquire] call ends at most once: its
    promise leads to the busy error at most once, to a [lock] attempt at most
    once, and never to both, so a caller that was told the database is busy
    is not granted the lock later through the entry it left in the queue. *)
Theorem waiting_call_ends_once (name : string) (dir : option string) (mem : bool)
    (evs : list Instance.Event) :
  let w := Instance.run evs (Instance.start (Instance.new name dir mem)) in
  NoDup (omap Instance.busy_id (Instance.trace w))
  ∧ NoDup (omap Instance.resumed (Instance.trace w))
  ∧ (∀ k s, Instance.Busy k s ∈ Instance.trace w →
       ∀ s', (Instance.Granted s' (Some k) ∉ Instance.trace w)
             ∧ (Instance.Refused s' (Some k) ∉ Instance.trace w)).
Proof.
  intros w.
  assert (Instance.settle_inv w) as (_ & _ & Hc & Hd).
  { apply settle_run. unfold Instance.settle_inv. simpl.
    split; [|split; [|split; [|constructor]]]; intros k Hin;
      by apply elem_of_nil in Hin. }
  assert (Instance.fifo_inv w) as (Hs & _).
  { apply fifo_inv_run, fifo_inv_start. done. }
  split; [done|]. split.
  - apply StronglySorted_NoDup. by apply StronglySorted_app in Hs as (_ & Hs & _).
  - intros k s Hb s'.
    assert (k ∉ omap Instance.resumed (Instance.trace w)) as Hn.
    { apply Hc. apply list_elem_of_omap. by exists (Instance.Busy k s). }
    split; intros Hin; apply Hn; apply list_elem_of_omap; eexists; split; eauto.
Qed.
